(** * hedge-fetch: the hedge budget, the latency tracker and the hedge coordinator

    A shallow embedding of [HedgeBucket] (the local token bucket),
    [LatencyTracker] (the adaptive P95 delay) and [HedgedContext.fetch]
    (the race between a primary and a speculative attempt), with the
    properties of the design document stated and settled against them.

    Numbers.  The TypeScript sources compute on JavaScript numbers.  The
    embedding computes on exact rationals ([Q]): latencies, token levels
    and the smoothed estimate are finite quantities, and the constants
    0.05, 0.2, 0.95 are taken at their decimal value.  Rounding of
    IEEE-754 doubles is therefore outside the main model; the module
    [Binary64] gives the same expressions on binary64 ([inc], the
    smoothing step, the percentile index), and what depends on the
    rounding (the level after a number of rewards, the sign of the
    estimate, the drift of a steady estimate) is stated there.

    Platform.  [Headers], [crypto.randomUUID] and [setTimeout] are
    embedded as far as the coordinator depends on them: [new Headers]
    lower-cases names, strips and joins values and refuses what is not
    well formed; a UUID is the string made of the bits drawn; a timer
    waits for its delay, or 1 ms when the delay is out of range. *)

From Stdlib Require Import QArith Qabs Qround Qminmax Lqa Lia ZArith List String Ascii Bool.
From Stdlib Require Import Sorting.Sorted Sorting.Permutation.
From Stdlib Require Floats.SpecFloat.
From stdpp Require Import base option gmap strings.
Import ListNotations.

Local Open Scope Q_scope.

(** ** A state monad for the methods of the two mutable objects *)

Module St.

Definition t (S A : Type) : Type := S -> A * S.

Definition ret {S A} (a : A) : t S A := fun s => (a, s).

Definition bind {S A B} (m : t S A) (k : A -> t S B) : t S B :=
  fun s => let '(a, s') := m s in k a s'.

Definition get {S} : t S S := fun s => (s, s).

Definition put {S} (s : S) : t S unit := fun _ => (tt, s).

Definition exec {S A} (m : t S A) (s : S) : S := snd (m s).

Definition eval {S A} (m : t S A) (s : S) : A := fst (m s).

End St.

Notation "'do' x <- m ; k" := (St.bind m (fun x => k))
  (at level 10, x name, m at level 100, k at level 200).

(** ** HedgeBucket (the local token bucket) *)

Module HedgeBucket.

Record t : Type := { tokens : Q }.

(** [private tokens = 0] *)
Definition fresh : t := {| tokens := 0 |}.

(** The [readonly] fields. *)
Definition maxTokens : Q := 10.
Definition hedgeCost : Q := 1.
Definition gainPerRequest : Q := 0.05.

(** [return this.tokens >= this.hedgeCost] *)
Definition canHedge : St.t t bool :=
  do b <- St.get; St.ret (Qle_bool hedgeCost (tokens b)).

(** [this.tokens -= this.hedgeCost] *)
Definition consumeHedge : St.t t unit :=
  do b <- St.get; St.put {| tokens := tokens b - hedgeCost |}.

(** [this.tokens = Math.min(this.maxTokens, this.tokens + this.gainPerRequest)] *)
Definition inc : St.t t unit :=
  do b <- St.get; St.put {| tokens := Qmin maxTokens (tokens b + gainPerRequest) |}.

(** Calls a client can make on the bucket. *)
Inductive call : Type := CanHedge | ConsumeHedge | Inc.

Definition perform (c : call) (b : t) : t :=
  match c with
  | CanHedge => St.exec canHedge b
  | ConsumeHedge => St.exec consumeHedge b
  | Inc => St.exec inc b
  end.

(** The bucket after each call of a sequence, in order. *)
Fixpoint history (b : t) (cs : list call) : list t :=
  match cs with
  | [] => []
  | c :: cs' => perform c b :: history (perform c b) cs'
  end.

(** The check-before-consume contract: every [ConsumeHedge] comes
    immediately after a [CanHedge] that returned [true].  [last] is the
    answer of the call just made when that call was [CanHedge]. *)
Fixpoint checked (last : option bool) (b : t) (cs : list call) : bool :=
  match cs with
  | [] => true
  | CanHedge :: cs' => checked (Some (St.eval canHedge b)) (St.exec canHedge b) cs'
  | ConsumeHedge :: cs' =>
      match last with
      | Some true => checked None (St.exec consumeHedge b) cs'
      | _ => false
      end
  | Inc :: cs' => checked None (St.exec inc b) cs'
  end.

Definition in_range (b : t) : Prop := 0 <= tokens b <= maxTokens.

End HedgeBucket.

(** ** LatencyTracker (the adaptive P95 delay) *)

Module LatencyTracker.

Record t : Type := { samples : list Q; currentP95 : Q }.

(** [samples = []], [currentP95 = 150] *)
Definition fresh : t := {| samples := []; currentP95 := 150 |}.

(** The [readonly] fields. *)
Definition maxSamples : nat := 100.
Definition alpha : Q := 0.2.
Definition minFloor : Q := 25.

(** [Array.prototype.sort(compare)]: a stable sort that puts [a] before
    [b] when [compare(a, b) <= 0] and [a] came first. *)
Fixpoint insert (compare : Q -> Q -> Q) (a : Q) (l : list Q) : list Q :=
  match l with
  | [] => [a]
  | b :: l' => if Qle_bool (compare a b) 0 then a :: l else b :: insert compare a l'
  end.

Fixpoint sort (compare : Q -> Q -> Q) (l : list Q) : list Q :=
  match l with
  | [] => []
  | a :: l' => insert compare a (sort compare l')
  end.

(** [Math.floor], [Math.round] (halves go up) and [Math.max] on numbers. *)
Definition Math_floor (x : Q) : Z := Qfloor x.
Definition Math_round (x : Q) : Q := inject_Z (Qfloor (x + 0.5)).
Definition Math_max (x y : Q) : Q := Qmax x y.

(** [Math.floor(sorted.length * 0.95) - 1] *)
Definition p95_index (n : nat) : Z :=
  (Math_floor (inject_Z (Z.of_nat n) * 0.95) - 1)%Z.

(** [calculateRawP95].  The read [sorted[Math.max(0, index)]] is in range
    whenever the window is not empty ([index_in_range] below); the
    default of [nth] stands for the out-of-range read, which the class
    never performs. *)
Definition calculateRawP95 : St.t t Q :=
  do tr <- St.get;
  let sorted := sort (fun a b => a - b) (samples tr) in
  let index := p95_index (length sorted) in
  St.ret (nth (Z.to_nat (Z.max 0 index)) sorted 0).

(** [updateSmoothedP95] *)
Definition updateSmoothedP95 : St.t t unit :=
  do tr <- St.get;
  if (length (samples tr) <? 5)%nat then St.ret tt
  else
    do rawP95 <- calculateRawP95;
    if (length (samples tr) <? 20)%nat then
      St.put {| samples := samples tr; currentP95 := rawP95 |}
    else
      St.put {| samples := samples tr;
                currentP95 := currentP95 tr * (1 - alpha) + rawP95 * alpha |}.

(** [add(ms)]: [shift] when the window is full, [push], then update. *)
Definition add (ms : Q) : St.t t unit :=
  do tr <- St.get;
  let window :=
    if (maxSamples <=? length (samples tr))%nat then tl (samples tr) else samples tr in
  do _ <- St.put {| samples := window ++ [ms]; currentP95 := currentP95 tr |};
  updateSmoothedP95.

(** [getWaitTime()] *)
Definition getWaitTime : St.t t Q :=
  do tr <- St.get;
  St.ret (Math_max minFloor (Math_round (currentP95 tr))).

(** The tracker after a sequence of [add] calls, oldest first. *)
Definition feed (tr : t) (xs : list Q) : t :=
  fold_left (fun tr x => St.exec (add x) tr) xs tr.

(** The window after [add(x)], and the raw percentile of a window: the
    element of the sorted copy at [max(0, floor(n * 0.95) - 1)]. *)
Definition pushed (tr : t) (x : Q) : list Q :=
  (if (100 <=? length (samples tr))%nat then tl (samples tr) else samples tr) ++ [x].

Definition rawP95 (window : list Q) : Q :=
  nth (Z.to_nat (Z.max 0 (Qfloor (inject_Z (Z.of_nat (length window)) * 0.95) - 1)))
      (sort (fun a b => a - b) window) 0.

End LatencyTracker.

(** ** Strings and [Headers] *)

Module Js.

Definition upper_ascii (c : ascii) : ascii :=
  if (Ascii.leb "a" c && Ascii.leb c "z")%bool
  then ascii_of_nat (nat_of_ascii c - 32) else c.

Definition lower_ascii (c : ascii) : ascii :=
  if (Ascii.leb "A" c && Ascii.leb c "Z")%bool
  then ascii_of_nat (nat_of_ascii c + 32) else c.

Fixpoint map_string (f : ascii -> ascii) (s : string) : string :=
  match s with
  | EmptyString => EmptyString
  | String c s' => String (f c) (map_string f s')
  end.

(** [String.prototype.toUpperCase] and [toLowerCase] on ASCII text. *)
Definition toUpperCase : string -> string := map_string upper_ascii.
Definition toLowerCase : string -> string := map_string lower_ascii.

(** [a ?? b] *)
Definition nullish {A} (a : option A) (b : A) : A :=
  match a with Some x => x | None => b end.

(** Truthiness of an optional boolean and of an optional number. *)
Definition truthy (b : option bool) : bool := nullish b false.
Definition truthy_ms (n : option nat) : bool :=
  match n with Some (S _) => true | _ => false end.

(** The delay [setTimeout(callback, ms)] really waits: a delay above
    2147483647 ms, or below 1 ms, is set to 1 ms. *)
Definition setTimeoutDelay (ms : nat) : nat :=
  if (2147483647 <? Z.of_nat ms)%Z then 1%nat else Nat.max 1 ms.

(** [Array.prototype.includes] on strings. *)
Definition includes (l : list string) (x : string) : bool :=
  existsb (String.eqb x) l.

End Js.

Module Headers.

(** What [new Headers(init)] accepts.  A header name is a token: one or
    more of the letters, the digits and [!#$%&'*+-.^_`|~].  A value is
    taken with the HTTP whitespace (tab, line feed, carriage return,
    space) at its two ends removed, and must then hold no NUL, line feed
    or carriage return.  For anything else [new Headers] throws a
    TypeError, before [fetch] has dispatched anything. *)
Definition isTokenChar (c : ascii) : bool :=
  (Ascii.leb "a" c && Ascii.leb c "z")
  || (Ascii.leb "A" c && Ascii.leb c "Z")
  || (Ascii.leb "0" c && Ascii.leb c "9")
  || existsb (Ascii.eqb c)
       ["!"; "#"; "$"; "%"; "&"; "'"; "*"; "+"; "-"; "."; "^"; "_"; "`"; "|"; "~"]%char.

Fixpoint allChars (f : ascii -> bool) (s : string) : bool :=
  match s with
  | EmptyString => true
  | String c s' => f c && allChars f s'
  end.

Definition validName (name : string) : bool :=
  match name with
  | EmptyString => false
  | _ => allChars isTokenChar name
  end.

Definition isHttpWhitespace (c : ascii) : bool :=
  existsb (Ascii.eqb c) ["009"; "010"; "013"; " "]%char.

Fixpoint stripLeading (s : string) : string :=
  match s with
  | EmptyString => EmptyString
  | String c s' => if isHttpWhitespace c then stripLeading s' else s
  end.

Fixpoint stripTrailing (s : string) : string :=
  match s with
  | EmptyString => EmptyString
  | String c s' =>
      match stripTrailing s' with
      | EmptyString => if isHttpWhitespace c then EmptyString else String c EmptyString
      | rest => String c rest
      end
  end.

(** The value as [Headers] stores it. *)
Definition normalize (value : string) : string := stripTrailing (stripLeading value).

Definition validValue (value : string) : bool :=
  allChars (fun c => negb (existsb (Ascii.eqb c) ["000"; "010"; "013"]%char)) value.

Definition wellFormed (pairs : list (string * string)) : bool :=
  forallb (fun nv => validName (fst nv) && validValue (normalize (snd nv))) pairs.

(** The [headers] option of a call: name/value pairs that [new Headers]
    accepts ([undefined] is the empty list). *)
Record init : Type := { pairs : list (string * string); pairs_ok : wellFormed pairs = true }.

Definition none : init := {| pairs := []; pairs_ok := eq_refl |}.

(** A [Headers] object: header names are case-insensitive and kept in
    lower case; each name has one value, the values appended under one
    name joined by a comma and a space. *)
Definition append (h : gmap string string) (nv : string * string) : gmap string string :=
  let name := Js.toLowerCase (fst nv) in
  match h !! name with
  | Some old => <[name := (old ++ ", " ++ normalize (snd nv))%string]> h
  | None => <[name := normalize (snd nv)]> h
  end.

(** [new Headers(init)] *)
Definition make (i : init) : gmap string string :=
  fold_left append (pairs i) ∅.

Definition has (h : gmap string string) (name : string) : bool :=
  bool_decide (is_Some (h !! Js.toLowerCase name)).

(** [headers.set(name, value)], for the names and values the code sets
    (which are valid). *)
Definition set (h : gmap string string) (name value : string) : gmap string string :=
  <[Js.toLowerCase name := normalize value]> h.

End Headers.

(** ** [crypto.randomUUID()] *)

Module Crypto.

Definition hexChars : list ascii :=
  ["0"; "1"; "2"; "3"; "4"; "5"; "6"; "7"; "8"; "9"; "a"; "b"; "c"; "d"; "e"; "f"]%char.

Definition hexDigit (d : N) : ascii := nth (N.to_nat (d mod 16)) hexChars "0"%char.

(** The hexadecimal digit at place [i] (0 the first) of the version 4
    UUID made of 128 random bits: digit 12 is the version, 4, and digit
    16 carries the variant. *)
Definition digit (bits : N) (i : nat) : N :=
  let raw := (N.shiftr bits (4 * N.of_nat (31 - i)) mod 16)%N in
  match i with
  | 12%nat => 4%N
  | 16%nat => (8 + raw mod 4)%N
  | _ => raw
  end.

Definition digits (bits : N) (from count : nat) : list ascii :=
  map (fun i => hexDigit (digit bits i)) (seq from count).

(** The value of a hexadecimal digit. *)
Fixpoint indexOf (a : ascii) (l : list ascii) : nat :=
  match l with
  | [] => 0
  | b :: l' => if Ascii.eqb a b then 0 else S (indexOf a l')
  end.

Definition hexValue (a : ascii) : N := N.of_nat (indexOf a hexChars).

(** The string [crypto.randomUUID()] returns when it draws [bits]. *)
Definition randomUUID (bits : N) : string :=
  string_of_list_ascii
    (digits bits 0 8 ++ "-"%char :: digits bits 8 4 ++ "-"%char :: digits bits 12 4
       ++ "-"%char :: digits bits 16 4 ++ "-"%char :: digits bits 20 12).

End Crypto.

(** ** HedgedContext (the hedge coordinator) *)

Module HedgedContext.

Inductive ResponseLabels : Type := primary | speculative.

(** A [Response] as far as the coordinator looks at it: the status and the
    [isHedged] property that [Object.defineProperty] adds to a winner of
    the speculative branch. *)
Record Response : Type := { status : Z; isHedged : bool }.

(** [Response.ok]: the status is in the range 200-299. *)
Definition ok (res : Response) : bool :=
  ((200 <=? status res) && (status res <=? 299))%Z.

(** The reason a signal is aborted with: the caller's own reason, or the
    string [`Request timed out after ${timeoutMs}ms`] of the deadline. *)
Inductive reason : Type :=
| UserReason (v : string)
| TimedOut (timeoutMs : nat).

(** The values a branch or the race can throw. *)
#[warnings="-register-all"] Inductive thrown : Type :=
| RetryableHTTPError (status : Z)
| NetworkError (msg : string)
| Aborted (r : reason)
| HookThrew (e : string)
| AggregateError (errors : list thrown)
| ServiceUnavailable.

Inductive completion (A : Type) : Type :=
| Return (a : A)
| Throw (e : thrown).
Arguments Return {A} a.
Arguments Throw {A} e.

(** What becomes of a promise: it stays pending for ever, or it is
    fulfilled or rejected at some time (milliseconds after the call). *)
Inductive fate (A : Type) : Type :=
| Pending
| Fulfilled (time : nat) (v : A)
| Rejected (time : nat) (e : thrown).
Arguments Pending {A}.
Arguments Fulfilled {A} time v.
Arguments Rejected {A} time e.

(** [handleResponse] *)
Definition handleResponse (res : Response) (label : ResponseLabels)
  : completion (Response * ResponseLabels) :=
  if (ok res || ((400 <=? status res) && (status res <? 500))%Z)%bool
  then Return (res, label)
  else Throw (RetryableHTTPError (status res)).

(** A hook either returns or throws. *)
Inductive hook : Type := HookReturns | HookThrows (e : string).

(** The caller's [AbortSignal]: when it is aborted (0: already aborted when
    [fetch] is called; [None]: never) and with which reason. *)
Record AbortSignal : Type := { firesAt : option nat; signalReason : string }.

(** The options of a call.  [timeoutMs] counts whole milliseconds;
    [headers] is an initialiser that [new Headers] accepts (with any
    other [new Headers] throws a TypeError and nothing is dispatched). *)
Record IHedgeFetchOptions : Type := {
  onHedge : option hook;
  onPrimaryWin : option hook;
  onSpeculativeWin : option hook;
  signal : option AbortSignal;
  forceHedge : option bool;
  autoIdempotency : option bool;
  timeoutMs : option nat;
  method : option string;
  headers : Headers.init
}.

(** What the transport does with an attempt that nobody aborts. *)
Inductive exchange : Type :=
| Responds (after : nat) (status : Z)
| NetworkFails (after : nat) (msg : string)
| Hangs.

(** Everything outside the coordinator that one call depends on: what the
    transport does with the two attempts, and the random bits that
    [crypto.randomUUID()] draws in this call. *)
Record World : Type := {
  primaryExchange : exchange;
  speculativeExchange : exchange;
  randomUUID : N
}.

Record t : Type := { bucket : HedgeBucket.t; tracker : LatencyTracker.t }.

(** *** Method and headers *)

Definition methodOf (init : IHedgeFetchOptions) : string :=
  Js.toUpperCase (Js.nullish (method init) "GET").

Definition isSafeMethod (init : IHedgeFetchOptions) : bool :=
  Js.includes ["GET"; "HEAD"; "OPTIONS"]%string (methodOf init).

Definition requestHeaders (init : IHedgeFetchOptions) (uuid : string)
  : gmap string string :=
  let headers := Headers.make (headers init) in
  if (String.eqb (methodOf init) "POST"
      && (Js.truthy (forceHedge init) || Js.truthy (autoIdempotency init)))%bool
  then
    if (negb (Headers.has headers "Idempotency-Key")
        && Js.truthy (autoIdempotency init))%bool
    then Headers.set headers "Idempotency-Key" uuid
    else headers
  else headers.

(** *** Abort signals *)

Inductive source : Type :=
| Caller
| PrimaryController
| SpeculativeController
| GlobalTimeoutController.

(** A signal is the list of sources it follows: one controller, or the
    [AbortSignal.any] of several. *)
Definition primarySignal (init : IHedgeFetchOptions) : list source :=
  match signal init with
  | Some _ => [Caller; PrimaryController; GlobalTimeoutController]
  | None => [PrimaryController]
  end.

Definition speculativeSignal (init : IHedgeFetchOptions) : list source :=
  match signal init with
  | Some _ => [Caller; SpeculativeController; GlobalTimeoutController]
  | None => [SpeculativeController]
  end.

(** A signal is aborted as soon as one of its sources is. *)
Definition aborted (fired : source -> bool) (sig : list source) : bool :=
  existsb fired sig.

(** When a source fires while the race is running.  The deadline fires
    when its timer does, with the message that names [timeoutMs]; the two
    branch controllers are only aborted by the settlement code. *)
Definition firing (init : IHedgeFetchOptions) (s : source) : option (nat * reason) :=
  match s with
  | Caller =>
      match signal init with
      | Some sg =>
          match firesAt sg with
          | Some time => Some (time, UserReason (signalReason sg))
          | None => None
          end
      | None => None
      end
  | GlobalTimeoutController =>
      match timeoutMs init with
      | Some ms =>
          if Js.truthy_ms (Some ms) then Some (Js.setTimeoutDelay ms, TimedOut ms) else None
      | None => None
      end
  | PrimaryController | SpeculativeController => None
  end.

Definition earlier (a b : option (nat * reason)) : option (nat * reason) :=
  match a, b with
  | Some (ta, _), Some (tb, _) => if (tb <? ta)%nat then b else a
  | None, _ => b
  | _, None => a
  end.

(** The first abort of a signal, with its reason. *)
Definition abortOf (init : IHedgeFetchOptions) (sig : list source)
  : option (nat * reason) :=
  fold_left (fun acc s => earlier acc (firing init s)) sig None.

(** *** The transport: [fetch(url, {..., signal})] dispatched at [start]

    An attempt whose signal is already aborted at the dispatch rejects at
    once with the signal's reason; an abort that comes before the answer,
    or in the answer's own millisecond (the deadline's timer was armed
    first), rejects the attempt at that time; otherwise the exchange ends
    as the transport has it. *)

Definition send (x : exchange) (start : nat) (abort : option (nat * reason))
  : fate Response :=
  let natural :=
    match x with
    | Responds d st => Fulfilled (start + d) {| status := st; isHedged := false |}
    | NetworkFails d m => Rejected (start + d) (NetworkError m)
    | Hangs => Pending
    end in
  match abort with
  | None => natural
  | Some (ta, r) =>
      if (ta <=? start)%nat then Rejected start (Aborted r)
      else
        match natural with
        | Pending => Rejected ta (Aborted r)
        | Fulfilled time _ | Rejected time _ =>
            if (ta <=? time)%nat then Rejected ta (Aborted r) else natural
        end
  end.

(** [.then(res => this.handleResponse(res, label))] *)
Definition classify (label : ResponseLabels) (f : fate Response)
  : fate (Response * ResponseLabels) :=
  match f with
  | Pending => Pending
  | Fulfilled time res =>
      match handleResponse res label with
      | Return v => Fulfilled time v
      | Throw e => Rejected time e
      end
  | Rejected time e => Rejected time e
  end.

(** *** The two branches *)

Definition primaryTransport (init : IHedgeFetchOptions) (w : World) : fate Response :=
  send (primaryExchange w) 0 (abortOf init (primarySignal init)).

(** [primaryRequest]; its [.catch] wakes the hedge and rethrows. *)
Definition primaryRequest (init : IHedgeFetchOptions) (w : World)
  : fate (Response * ResponseLabels) :=
  classify primary (primaryTransport init w).

(** [this.tracker.getWaitTime()], the delay of the hedge's timer: a whole
    number of milliseconds, at least 25, taken within the range of a
    timer (estimates below 2147483647 ms). *)
Definition waitToHedgeMs (c : t) : nat :=
  Z.to_nat (Qfloor (St.eval LatencyTracker.getWaitTime (tracker c))).

(** The hedge wakes on its timer or when the primary fails, whichever
    comes first; a primary that is fulfilled no later than the timer
    settles the race and the timer is cleared. *)
Definition woken (c : t) (p : fate (Response * ResponseLabels)) : bool :=
  match p with
  | Fulfilled tp _ => (waitToHedgeMs c <? tp)%nat
  | _ => true
  end.

Definition wakeTime (c : t) (p : fate (Response * ResponseLabels)) : nat :=
  match p with
  | Rejected tp _ => Nat.min (waitToHedgeMs c) tp
  | _ => waitToHedgeMs c
  end.

Definition stillHasBudget (c : t) : bool :=
  St.eval HedgeBucket.canHedge (bucket c).

Definition hookThrows (h : option hook) : option string :=
  match h with
  | Some (HookThrows e) => Some e
  | _ => None
  end.

(** The speculative attempt is dispatched. *)
Definition hedgeDispatched (c : t) (init : IHedgeFetchOptions)
  (p : fate (Response * ResponseLabels)) : bool :=
  (woken c p && stillHasBudget c
   && negb (bool_decide (is_Some (hookThrows (onHedge init)))))%bool.

(** [speculativeRequest] *)
Definition speculativeRequest (c : t) (init : IHedgeFetchOptions) (w : World)
  (p : fate (Response * ResponseLabels)) : fate (Response * ResponseLabels) :=
  if negb (woken c p) then Pending
  else if negb (stillHasBudget c) then Pending
  else
    match hookThrows (onHedge init) with
    | Some e => Rejected (wakeTime c p) (HookThrew e)
    | None =>
        classify speculative
          (send (speculativeExchange w) (wakeTime c p)
                (abortOf init (speculativeSignal init)))
    end.

(** [Promise.any([p, s])] *)
Definition Promise_any {A} (p s : fate A) : fate A :=
  match p, s with
  | Fulfilled tp vp, Fulfilled ts vs =>
      if (ts <? tp)%nat then Fulfilled ts vs else Fulfilled tp vp
  | Fulfilled tp vp, _ => Fulfilled tp vp
  | _, Fulfilled ts vs => Fulfilled ts vs
  | Rejected tp ep, Rejected ts es => Rejected (Nat.max tp ts) (AggregateError [ep; es])
  | _, _ => Pending
  end.

(** *** Settlement: the code after [await], [catch] and [finally] *)

Inductive hookName : Type := OnHedge | OnPrimaryWin | OnSpeculativeWin.

(** What one call of [fetch] leaves behind.  [outcome] is the fate of the
    promise [fetch] returns: fulfilled with the response, rejected with
    what was thrown, or never settled. *)
Record Settlement : Type := {
  outcome : fate Response;
  bucketAfter : HedgeBucket.t;
  trackerAfter : LatencyTracker.t;
  sentHeaders : option (gmap string string);
  hedged : bool;
  hooksCalled : list hookName;
  primaryAborted : bool;
  speculativeAborted : bool
}.

(** [if (userSignal && userSignal.aborted) throw userSignal.reason] *)
Definition abortedOnEntry (init : IHedgeFetchOptions) : option string :=
  match signal init with
  | Some sg =>
      match firesAt sg with
      | Some O => Some (signalReason sg)
      | _ => None
      end
  | None => None
  end.

(** [const canHedge = (isSafeMethod || forceHedge)] *)
Definition canHedge (init : IHedgeFetchOptions) : bool :=
  (isSafeMethod init || Js.truthy (forceHedge init))%bool.

(** The awaited promise: [Promise.any([primaryRequest, speculativeRequest])]
    when hedging is allowed, [primaryRequest] otherwise. *)
Definition raced (c : t) (init : IHedgeFetchOptions) (w : World)
  : fate (Response * ResponseLabels) :=
  let p := primaryRequest init w in
  if canHedge init then Promise_any p (speculativeRequest c init w p) else p.

(** The body of [try], then [catch]: the outcome, and whether
    [primaryController] and [speculativeController] were aborted. *)
Definition settle (init : IHedgeFetchOptions) (r : fate (Response * ResponseLabels))
  : fate Response * bool * bool :=
  match r with
  | Pending => (Pending, false, false)
  | Fulfilled ts (res, primary) =>
      match hookThrows (onPrimaryWin init) with
      | Some e => (Rejected ts (HookThrew e), true, true)
      | None => (Fulfilled ts res, false, true)
      end
  | Fulfilled ts (res, speculative) =>
      match hookThrows (onSpeculativeWin init) with
      | Some e => (Rejected ts (HookThrew e), true, true)
      | None => (Fulfilled ts {| status := status res; isHedged := true |}, true, false)
      end
  | Rejected ts (AggregateError _) => (Rejected ts ServiceUnavailable, true, true)
  | Rejected ts e => (Rejected ts e, true, true)
  end.

(** [this.tracker.add(primaryLatencyDuration)] runs when the primary's
    response headers arrive, unless the speculative branch has won before
    and [primaryController.abort()] has stopped the exchange. *)
Definition recordLatency (c : t) (init : IHedgeFetchOptions) (w : World)
  (r : fate (Response * ResponseLabels)) : LatencyTracker.t :=
  match primaryTransport init w with
  | Fulfilled tp _ =>
      let added := St.exec (LatencyTracker.add (inject_Z (Z.of_nat tp))) (tracker c) in
      match r with
      | Fulfilled ts (_, speculative) => if (ts <? tp)%nat then tracker c else added
      | _ => added
      end
  | _ => tracker c
  end.

(** [consumeHedge] at the dispatch of the hedge, [inc] when the primary
    wins with a 2xx. *)
Definition settleBudget (c : t) (dispatched : bool)
  (r : fate (Response * ResponseLabels)) : HedgeBucket.t :=
  let b := if dispatched then St.exec HedgeBucket.consumeHedge (bucket c) else bucket c in
  match r with
  | Fulfilled _ (res, primary) => if ok res then St.exec HedgeBucket.inc b else b
  | _ => b
  end.

Definition isSome {A} (h : option A) : bool :=
  match h with Some _ => true | None => false end.

(** The hooks that were called, in order. *)
Definition calledHooks (c : t) (init : IHedgeFetchOptions) (w : World)
  (r : fate (Response * ResponseLabels)) : list hookName :=
  (if (canHedge init && woken c (primaryRequest init w) && stillHasBudget c
       && isSome (onHedge init))%bool then [OnHedge] else [])
  ++ match r with
     | Fulfilled _ (_, primary) => if isSome (onPrimaryWin init) then [OnPrimaryWin] else []
     | Fulfilled _ (_, speculative) =>
         if isSome (onSpeculativeWin init) then [OnSpeculativeWin] else []
     | _ => []
     end.

(** [fetch(url, init)] *)
Definition fetch (c : t) (init : IHedgeFetchOptions) (w : World) : Settlement :=
  match abortedOnEntry init with
  | Some r =>
      {| outcome := Rejected 0 (Aborted (UserReason r));
         bucketAfter := bucket c;
         trackerAfter := tracker c;
         sentHeaders := None;
         hedged := false;
         hooksCalled := [];
         primaryAborted := false;
         speculativeAborted := false |}
  | None =>
      let p := primaryRequest init w in
      let r := raced c init w in
      let dispatched := (canHedge init && hedgeDispatched c init p)%bool in
      {| outcome := fst (fst (settle init r));
         bucketAfter := settleBudget c dispatched r;
         trackerAfter := recordLatency c init w r;
         sentHeaders := Some (requestHeaders init (Crypto.randomUUID (randomUUID w)));
         hedged := dispatched;
         hooksCalled := calledHooks c init w r;
         primaryAborted := snd (fst (settle init r));
         speculativeAborted := snd (settle init r) |}
  end.

End HedgedContext.

(** ** Inputs used in the examples *)

Module Scenarios.

Import HedgedContext.

(** [hedge.fetch(url, {})]: a GET with every option left out. *)
Definition plain : IHedgeFetchOptions :=
  {| onHedge := None; onPrimaryWin := None; onSpeculativeWin := None;
     signal := None; forceHedge := None; autoIdempotency := None;
     timeoutMs := None; method := None; headers := Headers.none |}.

Definition withMethod (m : string) (init : IHedgeFetchOptions) : IHedgeFetchOptions :=
  {| onHedge := onHedge init; onPrimaryWin := onPrimaryWin init;
     onSpeculativeWin := onSpeculativeWin init; signal := signal init;
     forceHedge := forceHedge init; autoIdempotency := autoIdempotency init;
     timeoutMs := timeoutMs init; method := Some m; headers := headers init |}.

Definition withSignal (sg : AbortSignal) (init : IHedgeFetchOptions) : IHedgeFetchOptions :=
  {| onHedge := onHedge init; onPrimaryWin := onPrimaryWin init;
     onSpeculativeWin := onSpeculativeWin init; signal := Some sg;
     forceHedge := forceHedge init; autoIdempotency := autoIdempotency init;
     timeoutMs := timeoutMs init; method := method init; headers := headers init |}.

Definition withTimeout (ms : nat) (init : IHedgeFetchOptions) : IHedgeFetchOptions :=
  {| onHedge := onHedge init; onPrimaryWin := onPrimaryWin init;
     onSpeculativeWin := onSpeculativeWin init; signal := signal init;
     forceHedge := forceHedge init; autoIdempotency := autoIdempotency init;
     timeoutMs := Some ms; method := method init; headers := headers init |}.

Definition withAutoIdempotency (init : IHedgeFetchOptions) : IHedgeFetchOptions :=
  {| onHedge := onHedge init; onPrimaryWin := onPrimaryWin init;
     onSpeculativeWin := onSpeculativeWin init; signal := signal init;
     forceHedge := forceHedge init; autoIdempotency := Some true;
     timeoutMs := timeoutMs init; method := method init; headers := headers init |}.

Definition withHooks (h p s : option hook) (init : IHedgeFetchOptions) : IHedgeFetchOptions :=
  {| onHedge := h; onPrimaryWin := p; onSpeculativeWin := s; signal := signal init;
     forceHedge := forceHedge init; autoIdempotency := autoIdempotency init;
     timeoutMs := timeoutMs init; method := method init; headers := headers init |}.

Definition withHeaders (h : Headers.init) (init : IHedgeFetchOptions) : IHedgeFetchOptions :=
  {| onHedge := onHedge init; onPrimaryWin := onPrimaryWin init;
     onSpeculativeWin := onSpeculativeWin init; signal := signal init;
     forceHedge := forceHedge init; autoIdempotency := autoIdempotency init;
     timeoutMs := timeoutMs init; method := method init; headers := h |}.

(** A caller's own key, written in capitals and with blanks around it. *)
Definition ownKey : Headers.init :=
  {| Headers.pairs := [("IDEMPOTENCY-KEY", " order-17 "); ("X-Trace", "a"); ("x-trace", "b")]%string;
     Headers.pairs_ok := eq_refl |}.


(** A context with the given token level and a fresh tracker (whose wait
    time is 150 ms). *)
Definition context (level : Q) : t :=
  {| bucket := {| HedgeBucket.tokens := level |}; tracker := LatencyTracker.fresh |}.

Definition world (p s : exchange) : World :=
  {| primaryExchange := p; speculativeExchange := s;
     randomUUID := 0x3b241101e2bb42558caf4136c566a962%N |}.

(** A caller's token that is never aborted, and one aborted at a time. *)
Definition quiet : AbortSignal := {| firesAt := None; signalReason := "unused" |}.
Definition cancelAt (time : nat) (why : string) : AbortSignal :=
  {| firesAt := Some time; signalReason := why |}.

(** Which sources have fired: only the deadline, only one handle. *)
Definition onlyDeadline (s : source) : bool :=
  match s with GlobalTimeoutController => true | _ => false end.
Definition onlyPrimaryHandle (s : source) : bool :=
  match s with PrimaryController => true | _ => false end.
Definition onlySpeculativeHandle (s : source) : bool :=
  match s with SpeculativeController => true | _ => false end.

(** The same call with [timeoutMs] left out. *)
Definition withoutTimeout (init : IHedgeFetchOptions) : IHedgeFetchOptions :=
  {| onHedge := onHedge init; onPrimaryWin := onPrimaryWin init;
     onSpeculativeWin := onSpeculativeWin init; signal := signal init;
     forceHedge := forceHedge init; autoIdempotency := autoIdempotency init;
     timeoutMs := None; method := method init; headers := headers init |}.

End Scenarios.

(** ** Binary64: the constants and thresholds on IEEE-754 doubles

    The same arithmetic on [spec_float] with the parameters of binary64
    (round to nearest, ties to even), for the places where rounding could
    move a threshold: the number of [inc] calls that reach one token, the
    index [Math.floor(n * 0.95) - 1] and the weight [1 - alpha]. *)

Module Binary64.

Import SpecFloat.

Definition prec : Z := 53.
Definition emax : Z := 1024.

Definition of_Z (z : Z) : spec_float := binary_normalize prec emax z 0 false.

(** The double nearest to the decimal [n / d], as a literal denotes it. *)
Definition lit (n d : Z) : spec_float := SFdiv prec emax (of_Z n) (of_Z d).

(** [Math.floor] of a finite double. *)
Definition floor (x : spec_float) : Z :=
  match x with
  | S754_finite s m e =>
      let n := if s then Z.neg m else Z.pos m in
      if (0 <=? e)%Z then (n * 2 ^ e)%Z else (n / 2 ^ (- e))%Z
  | _ => 0%Z
  end.

(** [Math.min(this.maxTokens, this.tokens + this.gainPerRequest)] *)
Definition inc (tokens : spec_float) : spec_float :=
  let sum := SFadd prec emax tokens (lit 5 100) in
  if SFltb sum (of_Z 10) then sum else of_Z 10.

(** [this.tokens >= this.hedgeCost] *)
Definition canHedge (tokens : spec_float) : bool := SFleb (of_Z 1) tokens.

(** [Math.floor(sorted.length * 0.95) - 1] *)
Definition p95_index (n : nat) : Z :=
  (floor (SFmul prec emax (of_Z (Z.of_nat n)) (lit 95 100)) - 1)%Z.

(** [1 - this.alpha] *)
Definition one_minus_alpha : spec_float := SFsub prec emax (of_Z 1) (lit 2 10).

(** [this.currentP95 * (1 - this.alpha) + rawP95 * this.alpha] *)
Definition smooth (currentP95 rawP95 : spec_float) : spec_float :=
  SFadd prec emax (SFmul prec emax currentP95 one_minus_alpha)
                  (SFmul prec emax rawP95 (lit 2 10)).

(** [x < 0] *)
Definition negative (x : spec_float) : bool := SFltb x (of_Z 0).

(** [Number.isFinite(x)] *)
Definition isFinite (x : spec_float) : bool :=
  match x with S754_finite _ _ _ | S754_zero _ => true | _ => false end.

(** The rational that a finite double denotes. *)
Definition toQ (x : spec_float) : Q :=
  match x with
  | S754_finite s m e =>
      let n := if s then Z.neg m else Z.pos m in
      if (0 <=? e)%Z then inject_Z (n * 2 ^ e) else Qmake n (Z.to_pos (2 ^ (- e)))
  | _ => 0
  end.

End Binary64.

(** ** Measures used in the further properties *)

Module Measures.



(** How many samples of a window pass a test; the tests "at most [r]",
    "below [r]", "at least [r]" and "above [r]". *)
Definition count (f : Q -> bool) (w : list Q) : nat := length (List.filter f w).
Definition atMost (r x : Q) : bool := Qle_bool x r.
Definition below (r x : Q) : bool := negb (Qle_bool r x).
Definition atLeast (r x : Q) : bool := Qle_bool r x.
Definition above (r x : Q) : bool := negb (Qle_bool x r).

(** The slot of the sorted window that [calculateRawP95] reads. *)
Definition slot (n : nat) : nat := Z.to_nat (Z.max 0 (LatencyTracker.p95_index n)).

(** A number lies between two bounds. *)
Definition within (lo hi x : Q) : Prop := lo <= x <= hi.

(** A promise is settled, and no later than a time. *)
Definition settledBy {A} (bound : nat) (f : HedgedContext.fate A) : Prop :=
  match f with
  | HedgedContext.Pending => False
  | HedgedContext.Fulfilled time _ | HedgedContext.Rejected time _ => (time <= bound)%nat
  end.

(** The level of a bucket on doubles after [n] rewards. *)
Definition level64 (n : nat) : SpecFloat.spec_float :=
  Nat.iter n Binary64.inc (Binary64.of_Z 0).

(** One pass over [k] successive levels from the level [x] after [n]
    rewards: each is below 10 and passes the check exactly from the
    twentieth reward on. *)
Fixpoint levelsPass (k : nat) (x : SpecFloat.spec_float) (n : nat) : bool :=
  match k with
  | O => true
  | S k' =>
      (Bool.eqb (Binary64.canHedge x) (20 <=? n)%nat
       && SpecFloat.SFltb x (Binary64.of_Z 10)
       && levelsPass k' (Binary64.inc x) (S n))%bool
  end.

(** One pass over [k] successive levels from the level [x] after [n]
    rewards: each is a finite double within [1e-13] of [n * 0.05]. *)
Fixpoint levelsNear (k : nat) (x : SpecFloat.spec_float) (n : nat) : bool :=
  match k with
  | O => true
  | S k' =>
      (Binary64.isFinite x
       && Qle_bool (Qabs (Binary64.toQ x - inject_Z (Z.of_nat n) * 0.05)) (1 # 10000000000000)
       && levelsNear k' (Binary64.inc x) (S n))%bool
  end.

End Measures.

(** * Properties *)

(** ** The hedge budget *)

Module BudgetProofs.

Import HedgeBucket.

Lemma canHedge_iff (b : t) : St.eval canHedge b = true <-> 1 <= tokens b.
Proof. unfold St.eval, canHedge; simpl. apply Qle_bool_iff. Qed.

Lemma canHedge_pure (b : t) : St.exec canHedge b = b.
Proof. reflexivity. Qed.

Lemma inc_level (b : t) :
  tokens (St.exec inc b) = Qmin 10 (tokens b + 0.05).
Proof. reflexivity. Qed.

Lemma consumeHedge_level (b : t) :
  tokens (St.exec consumeHedge b) = tokens b - 1.
Proof. reflexivity. Qed.

Lemma fresh_in_range : in_range fresh.
Proof. unfold in_range, fresh, maxTokens; simpl; lra. Qed.

Lemma inc_in_range (b : t) : in_range b -> in_range (St.exec inc b).
Proof.
  unfold in_range, maxTokens. rewrite inc_level. intros [Hlo Hhi]. split.
  - apply Q.min_glb; lra.
  - apply Q.le_min_l.
Qed.

Lemma consumeHedge_in_range (b : t) :
  in_range b -> 1 <= tokens b -> in_range (St.exec consumeHedge b).
Proof.
  unfold in_range, maxTokens. rewrite consumeHedge_level. intros [Hlo Hhi] H1.
  split; lra.
Qed.

(** The invariant carried along a sequence: the level is in range, and
    a [true] just answered by [canHedge] still holds of the level. *)
Lemma history_in_range (cs : list call) :
  forall (last : option bool) (b : t),
    in_range b ->
    (last = Some true -> 1 <= tokens b) ->
    checked last b cs = true ->
    Forall in_range (history b cs).
Proof.
  induction cs as [|c cs IH]; intros last b Hb Hlast Hck; simpl.
  - constructor.
  - destruct c; simpl in Hck |- *.
    + rewrite canHedge_pure in *. constructor; [exact Hb|].
      apply (IH (Some (St.eval canHedge b))); auto.
      intros E. injection E as E. now apply canHedge_iff.
    + destruct last as [[|]|]; try discriminate.
      assert (Hin : in_range (St.exec consumeHedge b))
        by (apply consumeHedge_in_range; auto).
      constructor; [exact Hin|].
      apply (IH None); auto; discriminate.
    + assert (Hin : in_range (St.exec inc b)) by (apply inc_in_range; auto).
      constructor; [exact Hin|].
      apply (IH None); auto; discriminate.
Qed.

(** The level after [n] calls of [inc] on a fresh bucket. *)
Lemma level_after_incs (n : nat) :
  tokens (Nat.iter n (St.exec inc) fresh) == Qmin 10 (inject_Z (Z.of_nat n) * 0.05).
Proof.
  induction n as [|n IH].
  - simpl. reflexivity.
  - rewrite Nat.iter_succ, inc_level, Nat2Z.inj_succ.
    unfold Z.succ. rewrite inject_Z_plus.
    set (x := tokens (Nat.iter n (St.exec inc) fresh)) in *.
    set (q := inject_Z (Z.of_nat n)) in *.
    destruct (Q.min_spec 10 (q * 0.05)) as [[H1 E1]|[H1 E1]];
      rewrite E1 in IH;
      destruct (Q.min_spec 10 (x + 0.05)) as [[H2 E2]|[H2 E2]];
      destruct (Q.min_spec 10 ((q + inject_Z 1) * 0.05)) as [[H3 E3]|[H3 E3]];
      rewrite E2, E3; change (inject_Z 1) with 1 in *; lra.
Qed.

(** C8.  Along every sequence of [canHedge] / [consumeHedge] / [inc] calls
    in which each [consumeHedge] comes immediately after a [canHedge] that
    answered [true], started on a bucket whose level is within [0, 10]
    (a fresh bucket is), the level stays within [0, 10] after every call;
    [inc] adds 0.05 clamped at 10, [consumeHedge] subtracts 1, and
    [canHedge] answers [true] exactly when the level is at least 1 and
    changes nothing. *)
Theorem C8_level_stays_within_bounds (b : t) (cs : list call) :
  in_range b ->
  checked None b cs = true ->
  Forall (fun b' => 0 <= tokens b' <= 10) (history b cs)
  /\ in_range fresh
  /\ (forall b', tokens (St.exec inc b') = Qmin 10 (tokens b' + 0.05))
  /\ (forall b', tokens (St.exec consumeHedge b') = tokens b' - 1)
  /\ (forall b', (St.eval canHedge b' = true <-> 1 <= tokens b')
                 /\ St.exec canHedge b' = b').
Proof.
  intros Hb Hck. split; [|split; [|split; [|split]]].
  - apply (history_in_range cs None b); auto; discriminate.
  - exact fresh_in_range.
  - exact inc_level.
  - exact consumeHedge_level.
  - intros b'. split; [apply canHedge_iff | apply canHedge_pure].
Qed.

(** A run on the fresh bucket: twenty rewards, a check, a hedge, a reward. *)
Lemma C8_level_stays_within_bounds_witness :
  in_range fresh
  /\ checked None fresh (repeat Inc 20 ++ [CanHedge; ConsumeHedge; Inc]) = true
  /\ Forall (fun b' => 0 <= tokens b' <= 10)
            (history fresh (repeat Inc 20 ++ [CanHedge; ConsumeHedge; Inc])).
Proof.
  split; [exact fresh_in_range | split; [vm_compute; reflexivity|]].
  apply (C8_level_stays_within_bounds fresh
           (repeat Inc 20 ++ [CanHedge; ConsumeHedge; Inc])).
  - exact fresh_in_range.
  - vm_compute; reflexivity.
Defined.

(** After [n] rewards on a fresh bucket, the check passes exactly from
    the twentieth on. *)
Lemma canHedge_after_incs (n : nat) :
  St.eval canHedge (Nat.iter n (St.exec inc) fresh) = (20 <=? n)%nat.
Proof.
  destruct (Nat.leb_spec 20 n) as [Hn|Hn].
  - apply canHedge_iff. rewrite level_after_incs.
    assert (H20 : 20 <= inject_Z (Z.of_nat n))
      by (change 20 with (inject_Z 20); rewrite <- Zle_Qle; lia).
    apply Q.min_glb; lra.
  - apply not_true_is_false. intros Hc. apply canHedge_iff in Hc.
    rewrite level_after_incs in Hc.
    assert (H20 : inject_Z (Z.of_nat n) <= 19)
      by (change 19 with (inject_Z 19); rewrite <- Zle_Qle; lia).
    pose proof (Q.le_min_r 10 (inject_Z (Z.of_nat n) * 0.05)) as Hm.
    lra.
Qed.

(** On doubles the twentieth reward gives 1.0000000000000002: the
    threshold is at the same call. *)
Lemma binary64_twenty_rewards :
  Binary64.canHedge (Nat.iter 19 Binary64.inc (Binary64.of_Z 0)) = false
  /\ Binary64.canHedge (Nat.iter 20 Binary64.inc (Binary64.of_Z 0)) = true
  /\ Nat.iter 20 Binary64.inc (Binary64.of_Z 0)
     = SpecFloat.S754_finite false 4503599627370497 (-52).
Proof. vm_compute. repeat split. Qed.

End BudgetProofs.

(** ** The latency tracker *)

Module TrackerProofs.

Import LatencyTracker.

Lemma insert_perm (cmp : Q -> Q -> Q) (a : Q) (l : list Q) :
  Permutation (insert cmp a l) (a :: l).
Proof.
  induction l as [|b l IH]; simpl.
  - reflexivity.
  - destruct (Qle_bool (cmp a b) 0).
    + reflexivity.
    + rewrite IH. apply perm_swap.
Qed.

Lemma sort_perm (cmp : Q -> Q -> Q) (l : list Q) : Permutation (sort cmp l) l.
Proof.
  induction l as [|a l IH]; simpl.
  - reflexivity.
  - rewrite insert_perm. now constructor.
Qed.

Lemma sort_length (cmp : Q -> Q -> Q) (l : list Q) : length (sort cmp l) = length l.
Proof. apply Permutation_length, sort_perm. Qed.

Lemma not_before (a b : Q) : Qle_bool (a - b) 0 = false -> b <= a.
Proof.
  intros E. destruct (Qlt_le_dec a b) as [Hlt|Hle]; [|exact Hle].
  assert (Hc : Qle_bool (a - b) 0 = true) by (apply Qle_bool_iff; lra).
  congruence.
Qed.

Lemma insert_sorted (a : Q) (l : list Q) :
  Sorted Qle l -> Sorted Qle (insert (fun a b => a - b) a l).
Proof.
  induction l as [|b l IH]; intros Hs; simpl.
  - repeat constructor.
  - destruct (Qle_bool (a - b) 0) eqn:E.
    + constructor; [exact Hs|]. constructor. apply Qle_bool_iff in E. lra.
    + apply Sorted_inv in Hs. destruct Hs as [Hs Hhd].
      constructor; [now apply IH|].
      destruct l as [|c l]; simpl.
      * constructor. now apply not_before.
      * destruct (Qle_bool (a - c) 0).
        -- constructor. now apply not_before.
        -- constructor. now apply HdRel_inv in Hhd.
Qed.

Lemma sort_sorted (l : list Q) : Sorted Qle (sort (fun a b => a - b) l).
Proof.
  induction l as [|a l IH]; simpl.
  - constructor.
  - now apply insert_sorted.
Qed.

(** [Math.floor(n * 0.95) - 1] in integers. *)
Lemma p95_index_div (n : nat) : p95_index n = (95 * Z.of_nat n / 100 - 1)%Z.
Proof.
  unfold p95_index, Math_floor. f_equal.
  unfold Qfloor, Qmult, inject_Z; simpl Qnum; simpl Qden.
  change (Z.pos (1 * 100)) with 100%Z. f_equal. lia.
Qed.

(** The read [sorted[Math.max(0, index)]] never leaves a non-empty window. *)
Lemma index_in_range (n : nat) :
  (0 < n)%nat -> (Z.to_nat (Z.max 0 (p95_index n)) < n)%nat.
Proof.
  intros Hn. rewrite p95_index_div.
  assert (95 * Z.of_nat n / 100 <= Z.of_nat n)%Z
    by (apply Z.div_le_upper_bound; lia).
  lia.
Qed.

Lemma add_unfold (tr : t) (x : Q) :
  St.exec (add x) tr =
  {| samples := pushed tr x;
     currentP95 :=
       if (length (pushed tr x) <? 5)%nat then currentP95 tr
       else if (length (pushed tr x) <? 20)%nat then rawP95 (pushed tr x)
       else currentP95 tr * (1 - alpha) + rawP95 (pushed tr x) * alpha |}.
Proof.
  unfold St.exec, add, updateSmoothedP95, calculateRawP95, St.bind, St.get, St.put,
    St.ret, pushed, rawP95, p95_index, Math_floor, maxSamples; simpl.
  destruct (length _ <? 5)%nat; simpl; [reflexivity|].
  rewrite sort_length.
  destruct (length _ <? 20)%nat; reflexivity.
Qed.

Lemma feed_snoc (tr : t) (xs : list Q) (x : Q) :
  feed tr (xs ++ [x]) = St.exec (add x) (feed tr xs).
Proof. unfold feed. now rewrite fold_left_app. Qed.

(** The window holds the last 100 samples, oldest first. *)
Lemma window_is_last_100 (xs : list Q) :
  samples (feed fresh xs) = skipn (length xs - 100) xs.
Proof.
  induction xs as [|x xs IH] using rev_ind.
  - reflexivity.
  - rewrite feed_snoc, add_unfold. cbn [samples]. unfold pushed. rewrite IH.
    rewrite length_skipn, length_app. cbn [length].
    destruct (Nat.leb_spec 100 (length xs - (length xs - 100))) as [H|H].
    + replace (length xs + 1 - 100)%nat with (S (length xs - 100)) by lia.
      rewrite skipn_app.
      replace (S (length xs - 100) - length xs)%nat with 0%nat by lia.
      cbn [skipn]. f_equal.
      change (tl (skipn (length xs - 100) xs)) with (skipn 1 (skipn (length xs - 100) xs)).
      rewrite skipn_skipn. reflexivity.
    + replace (length xs - 100)%nat with 0%nat by lia.
      replace (length xs + 1 - 100)%nat with 0%nat by lia.
      reflexivity.
Qed.

Lemma window_length (xs : list Q) :
  length (samples (feed fresh xs)) = Nat.min (length xs) 100.
Proof. rewrite window_is_last_100, length_skipn. lia. Qed.

(** C7.  After any sequence [xs] of [add] calls on a fresh tracker, one
    more [add x] leaves the last 100 samples in the window and sets the
    estimate by the total number of samples so far: below 5 the estimate
    is unchanged; from 5 to 19 it is the raw percentile, the element at
    index [max(0, floor(n * 0.95) - 1)] of the window sorted ascending
    ([n] the window's length); from 20 on it is 0.8 times the previous
    estimate plus 0.2 times that raw percentile.  Five samples of 100 on
    a fresh tracker give the estimate 100. *)
Theorem C7_estimate_update (xs : list Q) (x : Q) :
  let before := feed fresh xs in
  let after := St.exec (add x) before in
  let total := S (length xs) in
  (exists sorted : list Q,
      samples after = skipn (total - 100) (xs ++ [x])
      /\ Permutation sorted (samples after)
      /\ Sorted Qle sorted
      /\ let n := length sorted in
         let raw :=
           nth (Z.to_nat (Z.max 0 (Qfloor (inject_Z (Z.of_nat n) * 0.95) - 1)))
               sorted 0 in
         currentP95 after ==
           if (total <? 5)%nat then currentP95 before
           else if (total <? 20)%nat then raw
           else 0.8 * currentP95 before + 0.2 * raw)
  /\ currentP95 (feed fresh [100; 100; 100; 100; 100]) = 100.
Proof.
  intros before after total. split; [|reflexivity].
  assert (Hfeed : after = feed fresh (xs ++ [x])) by (symmetry; apply feed_snoc).
  assert (Hwin : samples after = skipn (total - 100) (xs ++ [x])).
  { rewrite Hfeed, window_is_last_100, length_app. cbn [length].
    subst total. f_equal. lia. }
  assert (Hlen : length (samples after) = Nat.min total 100).
  { rewrite Hfeed, window_length, length_app. cbn [length]. subst total. lia. }
  exists (sort (fun a b => a - b) (samples after)).
  split; [exact Hwin|]. split; [apply sort_perm|]. split; [apply sort_sorted|].
  cbv zeta. rewrite sort_length.
  subst after. rewrite add_unfold in Hlen |- *. cbn [samples currentP95] in Hlen |- *.
  fold (rawP95 (pushed before x)). rewrite Hlen.
  replace (Nat.min total 100 <? 5)%nat with (total <? 5)%nat
    by (destruct (Nat.ltb_spec total 5), (Nat.ltb_spec (Nat.min total 100) 5); lia).
  replace (Nat.min total 100 <? 20)%nat with (total <? 20)%nat
    by (destruct (Nat.ltb_spec total 20), (Nat.ltb_spec (Nat.min total 100) 20); lia).
  destruct (total <? 5)%nat; [reflexivity|].
  destruct (total <? 20)%nat; [reflexivity|].
  unfold alpha. ring.
Qed.

(** On doubles [Math.floor(n * 0.95) - 1] is the same index for every
    window length the tracker can have, and [1 - alpha] is the double 0.8. *)
Lemma binary64_index_and_weight :
  forallb (fun n => (Binary64.p95_index n =? p95_index n)%Z) (seq 0 101) = true
  /\ Binary64.one_minus_alpha = Binary64.lit 8 10.
Proof. split; vm_compute; reflexivity. Qed.

Lemma binary64_index (n : nat) :
  (n <= 100)%nat -> Binary64.p95_index n = p95_index n.
Proof.
  intros Hn. destruct binary64_index_and_weight as [Hall _].
  rewrite forallb_forall in Hall. apply Z.eqb_eq, Hall, in_seq. lia.
Qed.

(** [Math.round] is the nearest integer, halves going up. *)
Lemma Math_round_nearest (x : Q) :
  x - 0.5 < Math_round x /\ Math_round x <= x + 0.5.
Proof.
  unfold Math_round. split.
  - pose proof (Qlt_floor (x + 0.5)) as H. rewrite inject_Z_plus in H.
    change (inject_Z 1) with 1 in H. lra.
  - apply Qfloor_le.
Qed.

(** C9.  On every tracker, and so after every sequence of [add] calls,
    [getWaitTime()] returns [max(25, round(estimate))], where the rounded
    estimate is the integer nearest to the estimate (halves going up);
    the result is at least 25, and the call leaves the tracker as it was:
    the stored estimate is not clamped (five samples of 1 store the
    estimate 1 and read as 25). *)
Theorem C9_wait_time_has_floor (tr0 : t) (xs : list Q) :
  let tr := feed tr0 xs in
  (exists k : Z,
      St.eval getWaitTime tr = Qmax 25 (inject_Z k)
      /\ currentP95 tr - 0.5 < inject_Z k <= currentP95 tr + 0.5)
  /\ 25 <= St.eval getWaitTime tr
  /\ St.exec getWaitTime tr = tr
  /\ (currentP95 (feed fresh [1; 1; 1; 1; 1]) = 1
      /\ St.eval getWaitTime (feed fresh [1; 1; 1; 1; 1]) = 25).
Proof.
  intros tr. split; [|split; [|split; [reflexivity|]]].
  - exists (Qfloor (currentP95 tr + 0.5)). split; [reflexivity|].
    apply (Math_round_nearest (currentP95 tr)).
  - unfold St.eval, getWaitTime; simpl. apply Q.le_max_l.
  - split; reflexivity.
Qed.

End TrackerProofs.

(** ** The hedge coordinator *)

Module CoordinatorProofs.

Import HedgedContext Scenarios.

(** *** Classification of a branch's response *)

Lemma handleResponse_accepts (res : Response) (label : ResponseLabels) :
  handleResponse res label = Return (res, label)
  <-> (200 <= status res < 300 \/ 400 <= status res < 500)%Z.
Proof.
  unfold handleResponse, ok.
  destruct (((200 <=? status res) && (status res <=? 299))%Z
            || ((400 <=? status res) && (status res <? 500))%Z)%bool eqn:E.
  - split; [intros _|reflexivity].
    apply orb_true_iff in E. destruct E as [E|E]; apply andb_true_iff in E; lia.
  - split; [discriminate|]. intros H. exfalso.
    apply orb_false_iff in E. destruct E as [E1 E2].
    apply andb_false_iff in E1, E2. lia.
Qed.

Lemma handleResponse_throws (res : Response) (label : ResponseLabels) :
  handleResponse res label = Throw (RetryableHTTPError (status res))
  <-> (status res < 200 \/ 300 <= status res < 400 \/ 500 <= status res)%Z.
Proof.
  unfold handleResponse, ok.
  destruct (((200 <=? status res) && (status res <=? 299))%Z
            || ((400 <=? status res) && (status res <? 500))%Z)%bool eqn:E.
  - split; [discriminate|]. intros H. exfalso.
    apply orb_true_iff in E. destruct E as [E|E]; apply andb_true_iff in E; lia.
  - split; [intros _|reflexivity].
    apply orb_false_iff in E. destruct E as [E1 E2].
    apply andb_false_iff in E1, E2. lia.
Qed.

(** C4, as stated, fails on a 304: the status is in [200,400) and the
    branch ends in a retryable failure. *)
Lemma C4_counterexample :
  (200 <= 304 < 400)%Z
  /\ handleResponse {| status := 304; isHedged := false |} primary
     = Throw (RetryableHTTPError 304)
  /\ classify primary (Fulfilled 7 {| status := 304; isHedged := false |})
     = Rejected 7 (RetryableHTTPError 304).
Proof. repeat split; lia. Qed.

(** C4, amended.  A branch whose exchange brings a response is accepted,
    and the response handed on as it is, exactly when the status is in
    [200,300) or [400,500); it ends in the retryable failure exactly when
    the status is at least 500, in [300,400) or below 200; and a branch
    whose exchange fails at the transport level ends in that failure. *)
Theorem C4_classification (label : ResponseLabels) (time : nat) (res : Response)
  (e : thrown) :
  (classify label (Fulfilled time res) = Fulfilled time (res, label)
   <-> (200 <= status res < 300 \/ 400 <= status res < 500)%Z)
  /\ (classify label (Fulfilled time res) = Rejected time (RetryableHTTPError (status res))
      <-> (500 <= status res \/ 300 <= status res < 400 \/ status res < 200)%Z)
  /\ classify label (Rejected time e) = Rejected time e.
Proof.
  split; [|split; [|reflexivity]]; unfold classify.
  - rewrite <- (handleResponse_accepts res label).
    destruct (handleResponse res label); split; intros H; try discriminate;
      try (injection H as ->; reflexivity); congruence.
  - assert (Hiff : (500 <= status res \/ 300 <= status res < 400 \/ status res < 200)%Z
                   <-> (status res < 200 \/ 300 <= status res < 400 \/ 500 <= status res)%Z)
      by lia.
    rewrite Hiff, <- (handleResponse_throws res label).
    destruct (handleResponse res label); split; intros H; try discriminate; congruence.
Qed.

(** *** Preparing the headers *)

(** C5, as stated, fails on a PUT: the method is unsafe, [autoIdempotency]
    is set, no idempotency header is present, and the request goes out
    without one. *)
Lemma C5_counterexample :
  let init := withAutoIdempotency (withMethod "PUT" plain) in
  isSafeMethod init = false
  /\ Js.truthy (autoIdempotency init) = true
  /\ Headers.has (Headers.make (headers init)) "Idempotency-Key" = false
  /\ exists sent,
       sentHeaders (fetch (context 1) init (world (Responds 10 200) Hangs)) = Some sent
       /\ Headers.has sent "Idempotency-Key" = false.
Proof.
  cbv zeta. split; [reflexivity|]. split; [reflexivity|]. split; [reflexivity|].
  eexists. split; reflexivity.
Qed.

Lemma allChars_of_list (f : ascii -> bool) (l : list ascii) :
  Headers.allChars f (string_of_list_ascii l) = forallb f l.
Proof. induction l as [|a l IH]; cbn; [reflexivity|]. now rewrite IH. Qed.

Lemma stripTrailing_id (s : string) :
  Headers.allChars (fun a => negb (Headers.isHttpWhitespace a)) s = true ->
  Headers.stripTrailing s = s.
Proof.
  induction s as [|a s IH]; cbn [Headers.allChars Headers.stripTrailing]; [reflexivity|].
  intros H. apply andb_true_iff in H. destruct H as [Ha Hs].
  rewrite (IH Hs). destruct s; [|reflexivity].
  apply negb_true_iff in Ha. now rewrite Ha.
Qed.

(** A value with no HTTP whitespace in it is stored as it is. *)
Lemma normalize_id (s : string) :
  Headers.allChars (fun a => negb (Headers.isHttpWhitespace a)) s = true ->
  Headers.normalize s = s.
Proof.
  intros H. unfold Headers.normalize.
  assert (Hl : Headers.stripLeading s = s).
  { destruct s as [|a s]; [reflexivity|]. cbn in H |- *.
    apply andb_true_iff in H. destruct H as [Ha _].
    apply negb_true_iff in Ha. cbn in Ha. now rewrite Ha. }
  rewrite Hl. now apply stripTrailing_id.
Qed.

Lemma hexDigit_plain (d : N) :
  negb (Headers.isHttpWhitespace (Crypto.hexDigit d)) = true.
Proof.
  unfold Crypto.hexDigit.
  destruct (nth_in_or_default (N.to_nat (d mod 16)) Crypto.hexChars "0"%char) as [Hin| ->];
    [|reflexivity].
  revert Hin. generalize (nth (N.to_nat (d mod 16)) Crypto.hexChars "0"%char).
  apply (proj1 (forallb_forall _ Crypto.hexChars)). reflexivity.
Qed.

Lemma digits_plain (bits : N) (from count : nat) :
  forallb (fun a => negb (Headers.isHttpWhitespace a)) (Crypto.digits bits from count) = true.
Proof.
  unfold Crypto.digits. apply forallb_forall. intros a Ha.
  apply in_map_iff in Ha. destruct Ha as [i [<- _]]. apply hexDigit_plain.
Qed.

(** A generated UUID goes into the headers as it is. *)
Lemma normalize_randomUUID (bits : N) :
  Headers.normalize (Crypto.randomUUID bits) = Crypto.randomUUID bits.
Proof.
  apply normalize_id. unfold Crypto.randomUUID. rewrite allChars_of_list.
  repeat (rewrite forallb_app; apply andb_true_iff; split; [apply digits_plain|];
          cbn [forallb]; apply andb_true_iff; split; [reflexivity|]).
  apply digits_plain.
Qed.

Lemma hexValue_hexDigit (d : N) : (d < 16)%N -> Crypto.hexValue (Crypto.hexDigit d) = d.
Proof.
  intros H. unfold Crypto.hexDigit. rewrite N.mod_small by exact H.
  rewrite <- (N2Nat.id d) at 2.
  assert (Hn : (N.to_nat d < 16)%nat) by lia.
  generalize dependent (N.to_nat d). intros n Hn.
  do 16 (destruct n as [|n]; [reflexivity|]). lia.
Qed.

Lemma digit_small (bits : N) (i : nat) : (Crypto.digit bits i < 16)%N.
Proof.
  unfold Crypto.digit.
  set (raw := (N.shiftr bits (4 * N.of_nat (31 - i)) mod 16)%N).
  assert (Hraw : (raw < 16)%N) by (apply N.mod_lt; discriminate).
  assert (H4 : (raw mod 4 < 4)%N) by (apply N.mod_lt; discriminate).
  do 17 (destruct i as [|i]; [lia|]). exact Hraw.
Qed.

(** Two generated UUIDs are the same string only when the generator drew
    the same digits for both: distinct draws give distinct tokens. *)
Lemma randomUUID_digits (b b' : N) :
  Crypto.randomUUID b = Crypto.randomUUID b' ->
  forall i : nat, (i < 32)%nat -> Crypto.digit b i = Crypto.digit b' i.
Proof.
  intros E. apply (f_equal list_ascii_of_string) in E.
  unfold Crypto.randomUUID in E. rewrite !list_ascii_of_string_of_list_ascii in E.
  unfold Crypto.digits in E. cbn [seq map app] in E.
  assert (Hd : forall x y,
             Crypto.hexDigit (Crypto.digit b x) = Crypto.hexDigit (Crypto.digit b' y) ->
             Crypto.digit b x = Crypto.digit b' y).
  { intros x y H. apply (f_equal Crypto.hexValue) in H.
    now rewrite !hexValue_hexDigit in H by apply digit_small. }
  injection E as ?; intros.
  do 32 (destruct i as [|i]; [now apply Hd|]). lia.
Qed.

(** [new Headers] at work: blanks around a value are dropped, names are
    told apart without regard to letter case, and two values under one
    name are joined. *)
Example headers_as_stored :
  Headers.make ownKey !! "idempotency-key"%string = Some "order-17"%string
  /\ Headers.make ownKey !! "x-trace"%string = Some "a, b"%string
  /\ Headers.has (Headers.make ownKey) "Idempotency-Key" = true.
Proof. repeat split. Qed.

(** C5, amended.  For every race that gets past the entry check, the
    headers sent are those of [new Headers] on the given ones, with one
    change exactly when the method (in upper case) is POST,
    [autoIdempotency] is set and no [Idempotency-Key] header is present:
    that header is then set to the token freshly generated for this call,
    the UUID that [crypto.randomUUID()] makes of the bits it draws, which
    is unique in that another call gets the same token only when its
    generator draws the same digits.  For every other method no token is
    attached. *)
Theorem C5_post_gets_idempotency_key (c : t) (init : IHedgeFetchOptions) (w : World) :
  abortedOnEntry init = None ->
  exists sent : gmap string string,
    sentHeaders (fetch c init w) = Some sent
    /\ if (String.eqb (methodOf init) "POST" && Js.truthy (autoIdempotency init)
           && negb (Headers.has (Headers.make (headers init)) "Idempotency-Key"))%bool
       then sent !! "idempotency-key"%string = Some (Crypto.randomUUID (randomUUID w))
            /\ (forall name : string,
                  name <> "idempotency-key"%string ->
                  sent !! name = Headers.make (headers init) !! name)
            /\ (forall w' : World,
                  sent !! "idempotency-key"%string
                  = Some (Crypto.randomUUID (randomUUID w')) ->
                  forall i : nat,
                    (i < 32)%nat ->
                    Crypto.digit (randomUUID w) i = Crypto.digit (randomUUID w') i)
       else sent = Headers.make (headers init).
Proof.
  intros Hentry. unfold fetch. rewrite Hentry. cbn [sentHeaders].
  eexists. split; [reflexivity|].
  unfold requestHeaders.
  destruct (String.eqb (methodOf init) "POST"); cbn [andb]; [|reflexivity].
  destruct (Js.truthy (autoIdempotency init)); cbn [andb orb].
  - rewrite orb_true_r, andb_true_r.
    destruct (Headers.has (Headers.make (headers init)) "Idempotency-Key");
      cbn [negb]; [reflexivity|].
    unfold Headers.set. rewrite normalize_randomUUID.
    change (Js.toLowerCase "Idempotency-Key") with "idempotency-key"%string.
    split; [|split].
    + apply lookup_insert_eq.
    + intros name Hne. apply lookup_insert_ne. congruence.
    + intros w' E. rewrite lookup_insert_eq in E.
      apply randomUUID_digits. congruence.
  - rewrite andb_false_r. destruct (Js.truthy (forceHedge init)); reflexivity.
Qed.

(** A POST written in small letters gets the token; a POST that brings
    its own key, in whatever letter case, keeps it. *)
Lemma C5_post_gets_idempotency_key_witness :
  abortedOnEntry (withAutoIdempotency (withMethod "post" plain)) = None
  /\ (exists sent : gmap string string,
         sentHeaders (fetch (context 1) (withAutoIdempotency (withMethod "post" plain))
                            (world (Responds 10 200) Hangs)) = Some sent
         /\ sent !! "idempotency-key"%string
            = Some "3b241101-e2bb-4255-8caf-4136c566a962"%string)
  /\ (exists sent : gmap string string,
         sentHeaders (fetch (context 1)
                            (withHeaders ownKey (withAutoIdempotency (withMethod "POST" plain)))
                            (world (Responds 10 200) Hangs)) = Some sent
         /\ sent !! "idempotency-key"%string = Some "order-17"%string).
Proof.
  split; [reflexivity|]. split.
  - destruct (C5_post_gets_idempotency_key (context 1)
                (withAutoIdempotency (withMethod "post" plain))
                (world (Responds 10 200) Hangs) eq_refl) as [sent [Hsent Hkey]].
    exists sent. split; [exact Hsent|]. exact (proj1 Hkey).
  - destruct (C5_post_gets_idempotency_key (context 1)
                (withHeaders ownKey (withAutoIdempotency (withMethod "POST" plain)))
                (world (Responds 10 200) Hangs) eq_refl) as [sent [Hsent Hkey]].
    exists sent. split; [exact Hsent|].
    change (sent = Headers.make ownKey) in Hkey. rewrite Hkey. reflexivity.
Defined.

(** *** Cancellation signals *)

(** With a caller's token, each branch's signal follows the token, the
    deadline and the branch's own handle: the token or the deadline
    aborts both branches. *)
Lemma caller_token_composes_both (init : IHedgeFetchOptions) (fired : source -> bool) :
  isSome (signal init) = true ->
  (fired Caller || fired GlobalTimeoutController)%bool = true ->
  aborted fired (primarySignal init) = true
  /\ aborted fired (speculativeSignal init) = true.
Proof.
  unfold primarySignal, speculativeSignal, aborted.
  destruct (signal init); [intros _|discriminate]. cbn [existsb].
  destruct (fired Caller), (fired GlobalTimeoutController); cbn; intros H;
    try discriminate; split; reflexivity || apply orb_true_r.
Qed.

(** A branch handle aborts that branch only. *)
Lemma branch_handle_is_local (init : IHedgeFetchOptions) :
  aborted onlyPrimaryHandle (primarySignal init) = true
  /\ aborted onlyPrimaryHandle (speculativeSignal init) = false
  /\ aborted onlySpeculativeHandle (speculativeSignal init) = true
  /\ aborted onlySpeculativeHandle (primarySignal init) = false.
Proof.
  unfold primarySignal, speculativeSignal. destruct (signal init); repeat split.
Qed.

(** C2 fails on the call [fetch(url, { timeoutMs: 5000 })], which passes no
    caller token: each branch's signal is its own handle alone, the armed
    deadline aborts neither branch, and with a backend that never answers
    the race is still pending after the deadline. *)
Theorem C2_deadline_left_out_without_caller_token :
  let init := withTimeout 5000 plain in
  primarySignal init = [PrimaryController]
  /\ speculativeSignal init = [SpeculativeController]
  /\ firing init GlobalTimeoutController = Some (5000%nat, TimedOut 5000)
  /\ aborted onlyDeadline (primarySignal init) = false
  /\ aborted onlyDeadline (speculativeSignal init) = false
  /\ outcome (fetch (context 1) init (world Hangs Hangs)) = Pending.
Proof. cbv zeta. repeat split. Qed.

(** *** Deadline and caller cancellation *)

Lemma fetch_past_entry (c : t) (init : IHedgeFetchOptions) (w : World) :
  abortedOnEntry init = None ->
  outcome (fetch c init w) = fst (fst (settle init (raced c init w)))
  /\ primaryAborted (fetch c init w) = snd (fst (settle init (raced c init w)))
  /\ speculativeAborted (fetch c init w) = snd (settle init (raced c init w))
  /\ hedged (fetch c init w)
     = (canHedge init && hedgeDispatched c init (primaryRequest init w))%bool.
Proof. intros H. unfold fetch. rewrite H. repeat split. Qed.

(** A token that is already cancelled fails the call with the caller's
    reason, before anything is dispatched. *)
Lemma cancelled_on_entry (c : t) (init : IHedgeFetchOptions) (w : World) (why : string) :
  abortedOnEntry init = Some why ->
  outcome (fetch c init w) = Rejected 0 (Aborted (UserReason why))
  /\ sentHeaders (fetch c init w) = None
  /\ hedged (fetch c init w) = false.
Proof. intros H. unfold fetch. rewrite H. repeat split. Qed.

(** In a race without hedging, an abort of the primary attempt fails the
    race with the abort reason itself. *)
Lemma primary_only_abort (c : t) (init : IHedgeFetchOptions) (w : World)
  (time : nat) (r : reason) :
  abortedOnEntry init = None ->
  canHedge init = false ->
  primaryTransport init w = Rejected time (Aborted r) ->
  outcome (fetch c init w) = Rejected time (Aborted r).
Proof.
  intros Hentry Hno Hp.
  destruct (fetch_past_entry c init w Hentry) as [-> _].
  unfold raced, primaryRequest. rewrite Hno, Hp. reflexivity.
Qed.

Lemma Promise_any_rejected {A} (p s : fate A) (time : nat) (e : thrown) :
  Promise_any p s = Rejected time e -> exists errors, e = AggregateError errors.
Proof.
  destruct p as [|tp vp|tp ep], s as [|ts vs|ts es]; unfold Promise_any;
    try discriminate; try (destruct (ts <? tp)%nat; discriminate).
  intros H. inversion H. eexists. reflexivity.
Qed.

(** In a race with hedging, nothing the race throws is an abort reason:
    neither the time-out nor the caller's reason comes out of it. *)
Lemma hedged_race_never_throws_abort_reason (c : t) (init : IHedgeFetchOptions)
  (w : World) (time : nat) (r : reason) :
  abortedOnEntry init = None ->
  canHedge init = true ->
  outcome (fetch c init w) <> Rejected time (Aborted r).
Proof.
  intros Hentry Hc.
  destruct (fetch_past_entry c init w Hentry) as [-> _].
  unfold raced. rewrite Hc.
  destruct (Promise_any _ _) as [|ts [res [|]]|ts e] eqn:Hany; cbn.
  - discriminate.
  - destruct (hookThrows (onPrimaryWin init)); discriminate.
  - destruct (hookThrows (onSpeculativeWin init)); discriminate.
  - apply Promise_any_rejected in Hany. destruct Hany as [errors ->]. discriminate.
Qed.

(** C3 fails on hedged races.  With a caller token and a backend that never
    answers, a fired deadline of 5000 ms, and likewise a cancellation by
    the caller after 40 ms, fail the race with the aggregated
    service-unavailable error, which carries neither the time-out nor the
    caller's reason; without a caller token the fired deadline does not
    fail the race at all.  (A token already cancelled on entry does fail
    the call with the caller's reason.) *)
Theorem C3_deadline_and_cancel_end_as_aggregate :
  outcome (fetch (context 1) (withSignal quiet (withTimeout 5000 plain))
                 (world Hangs Hangs))
  = Rejected 5000 ServiceUnavailable
  /\ outcome (fetch (context 1) (withSignal (cancelAt 40 "stop") plain)
                    (world Hangs Hangs))
     = Rejected 40 ServiceUnavailable
  /\ outcome (fetch (context 1) (withTimeout 5000 plain) (world Hangs Hangs))
     = Pending
  /\ outcome (fetch (context 1) (withSignal (cancelAt 0 "stop") plain)
                    (world Hangs Hangs))
     = Rejected 0 (Aborted (UserReason "stop")).
Proof. repeat split. Qed.

(** *** The withdrawn hedge *)

Lemma send_undecorated (x : exchange) (start : nat) (ab : option (nat * reason))
  (time : nat) (res : Response) :
  send x start ab = Fulfilled time res -> isHedged res = false.
Proof.
  unfold send. destruct x, ab as [[ta r]|]; cbn;
    repeat match goal with |- context [if ?b then _ else _] => destruct b end;
    intros H; inversion H; reflexivity.
Qed.

Lemma classify_fulfilled (label l : ResponseLabels) (f : fate Response)
  (time : nat) (res : Response) :
  classify label f = Fulfilled time (res, l) -> f = Fulfilled time res /\ l = label.
Proof.
  destruct f as [|t0 r0|t0 e0]; cbn; try discriminate.
  unfold handleResponse. destruct (_ || _)%bool; intros H; inversion H; auto.
Qed.

Lemma primaryRequest_fulfilled (init : IHedgeFetchOptions) (w : World)
  (time : nat) (res : Response) (l : ResponseLabels) :
  primaryRequest init w = Fulfilled time (res, l) -> l = primary /\ isHedged res = false.
Proof.
  intros H. apply classify_fulfilled in H. destruct H as [H ->].
  split; [reflexivity|]. now apply send_undecorated in H.
Qed.

Lemma speculativeRequest_fulfilled (c : t) (init : IHedgeFetchOptions) (w : World)
  (p : fate (Response * ResponseLabels)) (time : nat) (res : Response)
  (l : ResponseLabels) :
  speculativeRequest c init w p = Fulfilled time (res, l) ->
  l = speculative /\ isHedged res = false
  /\ hedgeDispatched c init p = true.
Proof.
  unfold speculativeRequest, hedgeDispatched.
  destruct (woken c p); cbn [negb andb]; [|discriminate].
  destruct (stillHasBudget c); cbn [negb andb]; [|discriminate].
  destruct (hookThrows (onHedge init)); [discriminate|].
  intros H. apply classify_fulfilled in H. destruct H as [H ->].
  repeat split. now apply send_undecorated in H.
Qed.

Lemma Promise_any_fulfilled {A} (p s : fate A) (time : nat) (v : A) :
  Promise_any p s = Fulfilled time v -> p = Fulfilled time v \/ s = Fulfilled time v.
Proof.
  destruct p as [|tp vp|tp ep], s as [|ts vs|ts es]; unfold Promise_any;
    try discriminate; try (destruct (ts <? tp)%nat);
    intros H; inversion H; auto.
Qed.

(** A hedge that finds no budget stays pending: it is never dispatched
    and never wins. *)
Lemma withdrawn_hedge_is_pending (c : t) (init : IHedgeFetchOptions) (w : World)
  (p : fate (Response * ResponseLabels)) :
  stillHasBudget c = false ->
  speculativeRequest c init w p = Pending /\ hedgeDispatched c init p = false.
Proof.
  intros H. unfold speculativeRequest, hedgeDispatched. rewrite H.
  destruct (woken c p); split; reflexivity.
Qed.

Lemma withdrawn_hedge_never_wins (c : t) (init : IHedgeFetchOptions) (w : World)
  (time : nat) (res : Response) :
  stillHasBudget c = false ->
  hedged (fetch c init w) = false
  /\ (outcome (fetch c init w) = Fulfilled time res -> isHedged res = false).
Proof.
  intros Hb. unfold fetch.
  destruct (abortedOnEntry init); cbn [hedged outcome]; [split; [reflexivity|discriminate]|].
  destruct (withdrawn_hedge_is_pending c init w (primaryRequest init w) Hb) as [Hs Hd].
  rewrite Hd, andb_false_r. split; [reflexivity|].
  unfold raced. rewrite Hs.
  destruct (primaryRequest init w) as [|tp [rp lp]|tp ep] eqn:Hp.
  - destruct (canHedge init); discriminate.
  - apply primaryRequest_fulfilled in Hp. destruct Hp as [-> Hun].
    destruct (canHedge init); cbn; destruct (hookThrows (onPrimaryWin init));
      cbn; intros H; inversion H; subst; assumption.
  - destruct (canHedge init); cbn; [discriminate|].
    destruct ep; discriminate.
Qed.

(** With the hedge withdrawn, an accepted primary settles the race... *)
Lemma withdrawn_hedge_primary_accepted (c : t) (init : IHedgeFetchOptions) (w : World)
  (time : nat) (res : Response) (l : ResponseLabels) :
  abortedOnEntry init = None ->
  stillHasBudget c = false ->
  hookThrows (onPrimaryWin init) = None ->
  primaryRequest init w = Fulfilled time (res, l) ->
  outcome (fetch c init w) = Fulfilled time res.
Proof.
  intros Hentry Hb Hh Hp.
  destruct (fetch_past_entry c init w Hentry) as [-> _].
  destruct (withdrawn_hedge_is_pending c init w (primaryRequest init w) Hb) as [Hs _].
  unfold raced. rewrite Hs, Hp.
  apply primaryRequest_fulfilled in Hp. destruct Hp as [-> _].
  destruct (canHedge init); cbn; rewrite Hh; reflexivity.
Qed.

(** ... and a failed primary leaves the race pending for ever. *)
Lemma withdrawn_hedge_primary_failed (c : t) (init : IHedgeFetchOptions) (w : World)
  (time : nat) (e : thrown) :
  abortedOnEntry init = None ->
  canHedge init = true ->
  stillHasBudget c = false ->
  primaryRequest init w = Rejected time e ->
  outcome (fetch c init w) = Pending.
Proof.
  intros Hentry Hc Hb Hp.
  destruct (fetch_past_entry c init w Hentry) as [-> _].
  destruct (withdrawn_hedge_is_pending c init w (primaryRequest init w) Hb) as [Hs _].
  unfold raced. rewrite Hc, Hs, Hp. reflexivity.
Qed.

(** C1 fails on a GET with an empty budget whose primary answers 503 after
    3 ms: hedging is allowed, the budget check at the wake-up is false,
    the hedge is not dispatched, the primary ends in the retryable
    failure, and the race never settles (with a deadline armed or not). *)
Theorem C1_failed_primary_never_settles :
  let c := context 0 in
  let w := world (Responds 3 503) (Responds 10 200) in
  canHedge plain = true
  /\ stillHasBudget c = false
  /\ primaryRequest plain w = Rejected 3 (RetryableHTTPError 503)
  /\ speculativeRequest c plain w (primaryRequest plain w) = Pending
  /\ hedged (fetch c plain w) = false
  /\ outcome (fetch c plain w) = Pending
  /\ outcome (fetch c (withTimeout 5000 plain) w) = Pending.
Proof. cbv zeta. repeat split. Qed.

(** *** Hooks *)

(** The winner of the awaited promise comes undecorated from the
    transport, and is labelled speculative only if the hedge went out. *)
Lemma raced_fulfilled (c : t) (init : IHedgeFetchOptions) (w : World)
  (time : nat) (res : Response) (l : ResponseLabels) :
  raced c init w = Fulfilled time (res, l) ->
  isHedged res = false
  /\ (l = speculative ->
      canHedge init = true /\ hedgeDispatched c init (primaryRequest init w) = true).
Proof.
  unfold raced. destruct (canHedge init).
  - intros H. apply Promise_any_fulfilled in H. destruct H as [H|H].
    + apply primaryRequest_fulfilled in H. destruct H as [-> Hun].
      split; [exact Hun|discriminate].
    + apply speculativeRequest_fulfilled in H. destruct H as (-> & Hun & Hd).
      split; [exact Hun|]. intros _. split; [reflexivity|exact Hd].
  - intros H. apply primaryRequest_fulfilled in H. destruct H as [-> Hun].
    split; [exact Hun|discriminate].
Qed.

Lemma settle_rejected_is_rejected (init : IHedgeFetchOptions) (ts : nat) (e : thrown) :
  exists e', settle init (Rejected ts e) = (Rejected ts e', true, true).
Proof. destruct e; eexists; reflexivity. Qed.






(** *** The budget of a new process *)

(** C10.  A fresh local bucket has level 0, and after [n] calls of [inc]
    with no [consumeHedge] in between [canHedge] answers [true] exactly
    when [n] is at least 20: it answers [false] on the fresh bucket and
    after each of the first 19 rewards.  A race run on such a bucket
    with [n] below 20 dispatches no speculative attempt, whatever the
    tracker, the options and the backend. *)
Theorem C10_fresh_bucket_needs_twenty_rewards (n : nat) (tr : LatencyTracker.t)
  (init : IHedgeFetchOptions) (w : World) :
  HedgeBucket.tokens HedgeBucket.fresh = 0
  /\ St.eval HedgeBucket.canHedge
       (Nat.iter n (St.exec HedgeBucket.inc) HedgeBucket.fresh)
     = (20 <=? n)%nat
  /\ (hedged (fetch {| bucket := Nat.iter n (St.exec HedgeBucket.inc) HedgeBucket.fresh;
                       tracker := tr |} init w)
      && (n <? 20)%nat)%bool = false.
Proof.
  split; [reflexivity|]. split; [apply BudgetProofs.canHedge_after_incs|].
  destruct (Nat.ltb_spec n 20) as [Hn|Hn]; [|apply andb_false_r].
  rewrite andb_true_r.
  apply (withdrawn_hedge_never_wins _ init w 0%nat {| status := 0; isHedged := false |}).
  unfold stillHasBudget. cbn [bucket].
  rewrite BudgetProofs.canHedge_after_incs. apply Nat.leb_gt. exact Hn.
Qed.

(** *** The scenarios of the design document, run on the model *)

(** B: the primary answers 200 in 10 ms, before the hedge wakes: the
    primary wins, nothing is dispatched, the budget gains 0.05. *)
Example scenario_B :
  let s := fetch (context 1) plain (world (Responds 10 200) (Responds 10 200)) in
  outcome s = Fulfilled 10 {| status := 200; isHedged := false |}
  /\ hedged s = false
  /\ HedgeBucket.tokens (bucketAfter s) == 1.05.
Proof. cbv zeta. repeat split. Qed.

(** C and D: the primary stalls, or fails at once: the hedge goes out (at
    150 ms, at 3 ms), [onHedge] is called once, one token is paid and the
    hedge wins. *)
Example scenario_C :
  let hooks := withHooks (Some HookReturns) (Some HookReturns) (Some HookReturns) in
  let s := fetch (context 1) (hooks plain) (world (Responds 900 200) (Responds 10 200)) in
  outcome s = Fulfilled 160 {| status := 200; isHedged := true |}
  /\ hedged s = true
  /\ hooksCalled s = [OnHedge; OnSpeculativeWin]
  /\ primaryAborted s = true
  /\ HedgeBucket.tokens (bucketAfter s) == 0.
Proof. cbv zeta. repeat split. Qed.

Example scenario_D :
  let s := fetch (context 1) plain (world (NetworkFails 3 "reset") (Responds 10 200)) in
  outcome s = Fulfilled 13 {| status := 200; isHedged := true |}
  /\ hedged s = true.
Proof. cbv zeta. repeat split. Qed.

(** E: both attempts end in a server fault: one aggregated failure. *)
Example scenario_E :
  outcome (fetch (context 1) plain (world (Responds 3 503) (Responds 10 500)))
  = Rejected 13 ServiceUnavailable.
Proof. reflexivity. Qed.

End CoordinatorProofs.

(** * Further properties *)

(** ** The hedge budget *)

Module BudgetMore.

Import HedgeBucket Measures.





Lemma level64_succ (n : nat) : level64 (S n) = Binary64.inc (level64 n).
Proof. reflexivity. Qed.

Lemma levelsPass_sound (k : nat) :
  forall (n j : nat),
    levelsPass k (level64 n) n = true ->
    (j < k)%nat ->
    Binary64.canHedge (level64 (n + j)) = (20 <=? n + j)%nat
    /\ SpecFloat.SFltb (level64 (n + j)) (Binary64.of_Z 10) = true.
Proof.
  induction k as [|k IH]; intros n j Hp Hj; [lia|].
  cbn [levelsPass] in Hp. apply andb_true_iff in Hp. destruct Hp as [Hp Hrest].
  apply andb_true_iff in Hp. destruct Hp as [Hc Hlt].
  destruct j as [|j].
  - rewrite Nat.add_0_r. split; [now apply Bool.eqb_prop|exact Hlt].
  - rewrite <- level64_succ in Hrest.
    replace (n + S j)%nat with (S n + j)%nat by lia.
    apply IH; [exact Hrest|lia].
Qed.

Lemma level64_first_200 :
  levelsPass 200 (Binary64.of_Z 0) 0 = true
  /\ Nat.iter 200 Binary64.inc (Binary64.of_Z 0) = Binary64.of_Z 10
  /\ Binary64.inc (Binary64.of_Z 10) = Binary64.of_Z 10
  /\ Binary64.canHedge (Binary64.of_Z 10) = true.
Proof. vm_compute. repeat split. Qed.

Lemma level64_saturated (n : nat) : (200 <= n)%nat -> level64 n = Binary64.of_Z 10.
Proof.
  destruct level64_first_200 as (_ & H200 & Hfix & _).
  induction 1 as [|m Hm IH].
  - exact H200.
  - rewrite level64_succ, IH. exact Hfix.
Qed.

Lemma levelsNear_sound (k : nat) :
  forall (n j : nat),
    levelsNear k (level64 n) n = true ->
    (j < k)%nat ->
    Binary64.isFinite (level64 (n + j)) = true
    /\ Qabs (Binary64.toQ (level64 (n + j)) - inject_Z (Z.of_nat (n + j)) * 0.05)
       <= 1 # 10000000000000.
Proof.
  induction k as [|k IH]; intros n j Hp Hj; [lia|].
  cbn [levelsNear] in Hp. apply andb_true_iff in Hp. destruct Hp as [Hp Hrest].
  apply andb_true_iff in Hp. destruct Hp as [Hfin Hnear].
  destruct j as [|j].
  - rewrite Nat.add_0_r. split; [exact Hfin|now apply Qle_bool_iff].
  - rewrite <- level64_succ in Hrest.
    replace (n + S j)%nat with (S n + j)%nat by lia.
    apply IH; [exact Hrest|lia].
Qed.

Lemma level64_near_first_200 :
  levelsNear 200 (Binary64.of_Z 0) 0 = true
  /\ Qle_bool 3 (Binary64.toQ (Nat.iter 60 Binary64.inc (Binary64.of_Z 0))) = false.
Proof. vm_compute. split; reflexivity. Qed.

(** X2.  On IEEE-754 doubles, as the class computes: the level of a fresh
    bucket after [n] rewards is a finite double within [1e-13] of [n]
    times 0.05 below 200 rewards, and is exactly 10 from 200 rewards on.
    It is not [n] times 0.05 exactly: after 60 rewards it is below 3. *)
Theorem X2_level_after_rewards (n : nat) :
  (if (n <? 200)%nat
   then Binary64.isFinite (level64 n) = true
        /\ Qabs (Binary64.toQ (level64 n) - inject_Z (Z.of_nat n) * 0.05)
           <= 1 # 10000000000000
   else level64 n = Binary64.of_Z 10)
  /\ Binary64.toQ (level64 60) < 3.
Proof.
  destruct level64_near_first_200 as [Hall H60].
  split.
  - destruct (Nat.ltb_spec n 200) as [Hn|Hn].
    + exact (levelsNear_sound 200 0 n Hall Hn).
    + exact (level64_saturated n Hn).
  - unfold level64. apply Qnot_le_lt. intros H. apply Qle_bool_iff in H.
    rewrite H60 in H. discriminate.
Qed.

(** X3.  On IEEE-754 doubles, as the class computes: after [n] rewards on
    a fresh bucket [canHedge()] answers [true] exactly when [n] is at
    least 20, the level is below 10 before the 200th reward and is
    exactly 10 from the 200th on. *)
Theorem X3_double_levels (n : nat) :
  Binary64.canHedge (level64 n) = (20 <=? n)%nat
  /\ if (n <? 200)%nat
     then SpecFloat.SFltb (level64 n) (Binary64.of_Z 10) = true
     else level64 n = Binary64.of_Z 10.
Proof.
  destruct level64_first_200 as (Hall & _ & _ & Hten).
  destruct (Nat.ltb_spec n 200) as [Hn|Hn].
  - exact (levelsPass_sound 200 0 n Hall Hn).
  - rewrite (level64_saturated n Hn). split; [|reflexivity].
    rewrite Hten. symmetry. apply Nat.leb_le. lia.
Qed.

End BudgetMore.

(** ** The latency tracker *)

Module TrackerMore.

Import LatencyTracker Measures.

Lemma pushed_not_empty (tr : t) (x : Q) : (0 < length (pushed tr x))%nat.
Proof. unfold pushed. rewrite length_app. cbn. lia. Qed.

(** The raw percentile of a window that is not empty is one of its samples. *)
Lemma rawP95_in_window (w : list Q) : (0 < length w)%nat -> In (rawP95 w) w.
Proof.
  intros Hn. apply (Permutation_in _ (TrackerProofs.sort_perm (fun a b => a - b) w)).
  unfold rawP95. apply nth_In. rewrite TrackerProofs.sort_length.
  apply (TrackerProofs.index_in_range (length w) Hn).
Qed.

Lemma Forall_pushed (P : Q -> Prop) (tr : t) (x : Q) :
  Forall P (samples tr) -> P x -> Forall P (pushed tr x).
Proof.
  intros Hs Hx. unfold pushed. apply Forall_app. split; [|now constructor].
  destruct (100 <=? length (samples tr))%nat; [|exact Hs].
  destruct (samples tr); [constructor|]. now inversion Hs.
Qed.

Lemma round_aux_not_negative (mx ex : Z) (lx : SpecFloat.location) :
  Binary64.negative
    (SpecFloat.binary_round_aux Binary64.prec Binary64.emax false mx ex lx) = false.
Proof.
  unfold SpecFloat.binary_round_aux.
  destruct (SpecFloat.shr_fexp _ _ _ _ _) as [mrs' e'].
  destruct (SpecFloat.shr_fexp _ _ _ _ _) as [mrs'' e''].
  destruct (SpecFloat.shr_m mrs''); [reflexivity| |reflexivity].
  destruct (Z.leb _ _); reflexivity.
Qed.

Lemma mul_not_negative (x : SpecFloat.spec_float) (m : positive) (e : Z) :
  Binary64.negative x = false ->
  Binary64.negative
    (SpecFloat.SFmul Binary64.prec Binary64.emax x (SpecFloat.S754_finite false m e))
  = false.
Proof.
  destruct x as [[|]|[|]| |[|] m' e']; intros H; try discriminate H; try reflexivity.
  apply round_aux_not_negative.
Qed.

Lemma add_not_negative (x y : SpecFloat.spec_float) :
  Binary64.negative x = false -> Binary64.negative y = false ->
  Binary64.negative (SpecFloat.SFadd Binary64.prec Binary64.emax x y) = false.
Proof.
  destruct x as [[|]|[|]| |[|] mx ex]; intros Hx; try discriminate Hx;
    destruct y as [[|]|[|]| |[|] my ey]; intros Hy; try discriminate Hy;
    try reflexivity.
  unfold SpecFloat.SFadd, SpecFloat.cond_Zopp, SpecFloat.binary_normalize.
  change (Z.pos ?a + Z.pos ?b)%Z with (Z.pos (a + b)).
  cbv beta iota zeta. unfold SpecFloat.binary_round.
  destruct (SpecFloat.shl_align _ _ _) as [mz ez].
  apply round_aux_not_negative.
Qed.

(** On doubles a smoothing step of an estimate and a raw percentile that
    are not negative gives an estimate that is not negative. *)
Lemma smooth_not_negative (cur raw : SpecFloat.spec_float) :
  Binary64.negative cur = false -> Binary64.negative raw = false ->
  Binary64.negative (Binary64.smooth cur raw) = false.
Proof.
  intros Hc Hr. unfold Binary64.smooth.
  assert (E1 : exists m e, Binary64.one_minus_alpha = SpecFloat.S754_finite false m e)
    by (vm_compute; eauto).
  assert (E2 : exists m e, Binary64.lit 2 10 = SpecFloat.S754_finite false m e)
    by (vm_compute; eauto).
  destruct E1 as (m1 & e1 & ->). destruct E2 as (m2 & e2 & ->).
  apply add_not_negative; now apply mul_not_negative.
Qed.

Lemma add_keeps (lo hi : Q) (tr : t) (x : Q) :
  0 <= lo ->
  0 <= currentP95 tr ->
  Forall (within lo hi) (samples tr) ->
  within lo hi x ->
  0 <= currentP95 (St.exec (add x) tr)
  /\ Forall (within lo hi) (samples (St.exec (add x) tr))
  /\ ((length (samples (St.exec (add x) tr)) < 20)%nat ->
      within lo hi (currentP95 tr) ->
      within lo hi (currentP95 (St.exec (add x) tr))).
Proof.
  intros Hlo Hc Hs Hx. rewrite TrackerProofs.add_unfold. cbn [samples currentP95].
  assert (Hp : Forall (within lo hi) (pushed tr x)) by now apply Forall_pushed.
  assert (Hraw : within lo hi (rawP95 (pushed tr x))).
  { rewrite List.Forall_forall in Hp. apply Hp, rawP95_in_window, pushed_not_empty. }
  split; [|split; [exact Hp|]].
  - destruct (length (pushed tr x) <? 5)%nat; [exact Hc|].
    unfold within in Hraw.
    destruct (length (pushed tr x) <? 20)%nat; [lra|].
    unfold alpha. nra.
  - intros Hlen Hw. apply Nat.ltb_lt in Hlen. rewrite Hlen.
    destruct (length (pushed tr x) <? 5)%nat; assumption.
Qed.

Lemma feed_cons (tr : t) (x : Q) (xs : list Q) :
  feed tr (x :: xs) = feed (St.exec (add x) tr) xs.
Proof. reflexivity. Qed.

Lemma length_add (tr : t) (x : Q) :
  (length (samples tr) < 100)%nat ->
  length (samples (St.exec (add x) tr)) = S (length (samples tr)).
Proof.
  intros H. rewrite TrackerProofs.add_unfold. cbn [samples]. unfold pushed.
  destruct (Nat.leb_spec 100 (length (samples tr))); [lia|].
  rewrite length_app. cbn. lia.
Qed.

(** X4.  If the samples in the window and the samples added all lie
    between two bounds that are not negative, and the estimate is not
    negative, then after the adds the estimate is not negative and the
    window holds only samples within the bounds; while fewer than 20
    samples have been collected an estimate within the bounds stays
    within them.  The smoothing itself, as computed on doubles, never
    makes a negative estimate out of an estimate and a percentile that
    are not negative. *)
Theorem X4_estimate_never_negative (lo hi : Q) (xs : list Q) (tr : t) :
  0 <= lo ->
  0 <= currentP95 tr ->
  Forall (within lo hi) (samples tr) ->
  Forall (within lo hi) xs ->
  0 <= currentP95 (feed tr xs)
  /\ Forall (within lo hi) (samples (feed tr xs))
  /\ ((length (samples tr) + length xs < 20)%nat ->
      within lo hi (currentP95 tr) ->
      within lo hi (currentP95 (feed tr xs)))
  /\ (forall cur raw : SpecFloat.spec_float,
        Binary64.negative cur = false ->
        Binary64.negative raw = false ->
        Binary64.negative (Binary64.smooth cur raw) = false).
Proof.
  intros Hlo Hc Hs Hxs.
  assert (H : 0 <= currentP95 (feed tr xs)
              /\ Forall (within lo hi) (samples (feed tr xs))
              /\ ((length (samples tr) + length xs < 20)%nat ->
                  within lo hi (currentP95 tr) ->
                  within lo hi (currentP95 (feed tr xs)))).
  { revert tr Hc Hs. induction Hxs as [|x xs Hx Hxs IH]; intros tr Hc Hs.
    - cbn. auto.
    - rewrite feed_cons.
      destruct (add_keeps lo hi tr x Hlo Hc Hs Hx) as (Hc' & Hs' & Hw').
      destruct (IH (St.exec (add x) tr) Hc' Hs') as (H1 & H2 & H3).
      split; [exact H1|]. split; [exact H2|].
      intros Hlen Hw. cbn [length] in Hlen.
      assert (Hl : length (samples (St.exec (add x) tr)) = S (length (samples tr)))
        by (apply length_add; lia).
      apply H3; [lia|]. apply Hw'; [lia|exact Hw]. }
  destruct H as (H1 & H2 & H3).
  repeat split; try assumption; try (apply H3; assumption).
  apply smooth_not_negative.
Qed.

Lemma X4_estimate_never_negative_witness :
  0 <= 0
  /\ 0 <= currentP95 fresh
  /\ Forall (within 0 150) (samples fresh)
  /\ Forall (within 0 150) [30; 0; 12; 150; 7; 90]
  /\ 0 <= currentP95 (feed fresh [30; 0; 12; 150; 7; 90])
  /\ within 0 150 (currentP95 (feed fresh [30; 0; 12; 150; 7; 90]))
  /\ Binary64.negative (Binary64.smooth (Binary64.of_Z 150) (Binary64.of_Z 0)) = false.
Proof.
  assert (H0 : 0 <= 0) by lra.
  assert (Hc : 0 <= currentP95 fresh) by (cbn; lra).
  assert (H1 : Forall (within 0 150) (samples fresh)) by constructor.
  assert (H2 : Forall (within 0 150) [30; 0; 12; 150; 7; 90])
    by (repeat constructor; cbn; lra).
  destruct (X4_estimate_never_negative 0 150 [30; 0; 12; 150; 7; 90] fresh H0 Hc H1 H2)
    as (R1 & _ & R3 & R4).
  split; [exact H0|]. split; [exact Hc|]. split; [exact H1|]. split; [exact H2|].
  split; [exact R1|]. split.
  - apply R3; [cbn; lia|]. unfold within; cbn; lra.
  - apply R4; reflexivity.
Defined.

(** *** A steady latency *)

Lemma steady_window (v : Q) (n : nat) :
  Forall (fun x => x = v) (samples (feed fresh (repeat v n))).
Proof.
  rewrite TrackerProofs.window_is_last_100.
  apply List.Forall_forall. intros x Hx.
  assert (Hin : In x (repeat v n)).
  { rewrite <- (firstn_skipn (length (repeat v n) - 100) (repeat v n)).
    apply in_or_app. now right. }
  now apply repeat_spec in Hin.
Qed.

Lemma steady_step (v : Q) (n : nat) :
  feed fresh (repeat v (S n)) = St.exec (add v) (feed fresh (repeat v n)).
Proof.
  change (repeat v (S n)) with (v :: repeat v n).
  now rewrite repeat_cons, TrackerProofs.feed_snoc.
Qed.

Lemma steady_length (v : Q) (n : nat) :
  length (pushed (feed fresh (repeat v n)) v) = Nat.min (S n) 100.
Proof.
  change (pushed (feed fresh (repeat v n)) v)
    with (samples {| samples := pushed (feed fresh (repeat v n)) v;
                     currentP95 := currentP95 (St.exec (add v) (feed fresh (repeat v n))) |}).
  assert (E : samples (St.exec (add v) (feed fresh (repeat v n)))
              = pushed (feed fresh (repeat v n)) v)
    by now rewrite TrackerProofs.add_unfold.
  cbn [samples]. rewrite <- E, <- steady_step, TrackerProofs.window_is_last_100.
  rewrite length_skipn, repeat_length. lia.
Qed.

Lemma steady_raw (v : Q) (n : nat) :
  rawP95 (pushed (feed fresh (repeat v n)) v) = v.
Proof.
  assert (Hall : Forall (fun x => x = v) (pushed (feed fresh (repeat v n)) v))
    by (apply Forall_pushed; [apply steady_window|reflexivity]).
  rewrite List.Forall_forall in Hall.
  apply Hall, rawP95_in_window, pushed_not_empty.
Qed.

Lemma steady_estimate (v : Q) (n : nat) :
  currentP95 (feed fresh (repeat v (S n)))
  = if (S n <? 5)%nat then currentP95 (feed fresh (repeat v n))
    else if (S n <? 20)%nat then v
    else currentP95 (feed fresh (repeat v n)) * (1 - alpha) + v * alpha.
Proof.
  rewrite steady_step, TrackerProofs.add_unfold. cbn [currentP95].
  rewrite steady_raw, steady_length.
  destruct (Nat.ltb_spec (S n) 5) as [H5|H5].
  - destruct (Nat.ltb_spec (Nat.min (S n) 100) 5); [reflexivity|lia].
  - destruct (Nat.ltb_spec (Nat.min (S n) 100) 5); [lia|].
    destruct (Nat.ltb_spec (S n) 20) as [H20|H20].
    + destruct (Nat.ltb_spec (Nat.min (S n) 100) 20); [reflexivity|lia].
    + destruct (Nat.ltb_spec (Nat.min (S n) 100) 20); [lia|reflexivity].
Qed.

(** X5.  When every sample is the same latency [v]: the estimate is 150
    up to the fourth sample, it is [v] itself from the fifth to the
    nineteenth, and from the twentieth on each sample replaces the
    estimate [e] by [e * (1 - alpha) + v * alpha].  On doubles that
    expression need not give [v] back: for an estimate and a latency of
    3 it gives a number above 3. *)
Theorem X5_steady_latency_is_learnt (v : Q) (n : nat) :
  ((n < 5)%nat -> currentP95 (feed fresh (repeat v n)) = 150)
  /\ ((5 <= n < 20)%nat -> currentP95 (feed fresh (repeat v n)) = v)
  /\ ((20 <= n)%nat ->
      currentP95 (feed fresh (repeat v n))
      = currentP95 (feed fresh (repeat v (n - 1))) * (1 - alpha) + v * alpha)
  /\ SpecFloat.SFltb (Binary64.of_Z 3)
       (Binary64.smooth (Binary64.of_Z 3) (Binary64.of_Z 3)) = true.
Proof.
  split; [|split; [|split]].
  - induction n as [|n IH]; intros Hn; [reflexivity|].
    rewrite steady_estimate.
    destruct (Nat.ltb_spec (S n) 5); [apply IH|]; lia.
  - intros Hn. destruct n as [|n]; [lia|].
    rewrite steady_estimate.
    destruct (Nat.ltb_spec (S n) 5); [lia|].
    destruct (Nat.ltb_spec (S n) 20); [reflexivity|lia].
  - intros Hn. destruct n as [|n]; [lia|].
    rewrite steady_estimate.
    destruct (Nat.ltb_spec (S n) 5); [lia|].
    destruct (Nat.ltb_spec (S n) 20); [lia|].
    now replace (S n - 1)%nat with n by lia.
  - vm_compute. reflexivity.
Qed.

Lemma X5_steady_latency_is_learnt_witness :
  currentP95 (feed fresh (repeat 3 4)) = 150
  /\ currentP95 (feed fresh (repeat 3 12)) = 3
  /\ currentP95 (feed fresh (repeat 3 20))
     = currentP95 (feed fresh (repeat 3 19)) * (1 - alpha) + 3 * alpha.
Proof.
  split; [|split].
  - apply (proj1 (X5_steady_latency_is_learnt 3 4)). lia.
  - apply (proj1 (proj2 (X5_steady_latency_is_learnt 3 12))). lia.
  - apply (proj1 (proj2 (proj2 (X5_steady_latency_is_learnt 3 20)))). lia.
Defined.

(** *** The rank of the raw percentile *)

Lemma count_perm (f : Q -> bool) (l l' : list Q) :
  Permutation l l' -> count f l = count f l'.
Proof.
  unfold count. induction 1 as [|x l l' _ IH|x y l|l l' l'' _ IH1 _ IH2]; cbn.
  - reflexivity.
  - destruct (f x); cbn; congruence.
  - destruct (f x), (f y); reflexivity.
  - congruence.
Qed.

Lemma count_all (f : Q -> bool) (l : list Q) :
  Forall (fun x => f x = true) l -> count f l = length l.
Proof.
  unfold count. induction 1 as [|x l Hx _ IH]; cbn; [reflexivity|].
  rewrite Hx. cbn. now rewrite IH.
Qed.

Lemma count_none (f : Q -> bool) (l : list Q) :
  Forall (fun x => f x = false) l -> count f l = 0%nat.
Proof.
  unfold count. induction 1 as [|x l Hx _ IH]; cbn; [reflexivity|].
  now rewrite Hx.
Qed.

Lemma count_app (f : Q -> bool) (l l' : list Q) :
  count f (l ++ l') = (count f l + count f l')%nat.
Proof. unfold count. now rewrite List.filter_app, length_app. Qed.

Lemma count_le_length (f : Q -> bool) (l : list Q) : (count f l <= length l)%nat.
Proof. apply List.filter_length_le. Qed.

Lemma count_mono (f g : Q -> bool) (l : list Q) :
  (forall x, f x = true -> g x = true) -> (count f l <= count g l)%nat.
Proof.
  intros Hfg. unfold count. induction l as [|x l IH]; cbn; [lia|].
  destruct (f x) eqn:Hf.
  - rewrite (Hfg x Hf). cbn. lia.
  - destruct (g x); cbn; lia.
Qed.

Lemma sort_strongly_sorted (l : list Q) :
  StronglySorted Qle (sort (fun a b => a - b) l).
Proof.
  apply Sorted_StronglySorted; [|apply TrackerProofs.sort_sorted].
  intros x y z. apply Qle_trans.
Qed.

(** In a sorted list, the slots up to [i] hold values at most the one in
    slot [i], and the slots from [i] on hold values at least that. *)
Lemma sorted_split (s : list Q) :
  StronglySorted Qle s ->
  forall i : nat,
    (i < length s)%nat ->
    Forall (fun x => x <= nth i s 0) (firstn (S i) s)
    /\ Forall (fun x => nth i s 0 <= x) (skipn i s).
Proof.
  induction 1 as [|a s Hs IH Ha]; intros i Hi; [cbn in Hi; lia|].
  destruct i as [|i].
  - cbn. split.
    + constructor; [apply Qle_refl|constructor].
    + constructor; [apply Qle_refl|exact Ha].
  - cbn in Hi. destruct (IH i) as [H1 H2]; [lia|].
    cbn [nth skipn]. split; [|exact H2].
    change (firstn (S (S i)) (a :: s)) with (a :: firstn (S i) s).
    constructor; [|exact H1].
    rewrite List.Forall_forall in Ha. apply Ha, nth_In. lia.
Qed.

Lemma sorted_rank (s : list Q) (i : nat) :
  StronglySorted Qle s ->
  (i < length s)%nat ->
  (i + 1 <= count (atMost (nth i s 0%Q)) s)%nat
  /\ (count (below (nth i s 0%Q)) s <= i)%nat
  /\ (count (above (nth i s 0%Q)) s <= length s - (i + 1))%nat.
Proof.
  intros Hs Hi. destruct (sorted_split s Hs i Hi) as [Hfirst Hrest].
  split; [|split].
  - rewrite <- (firstn_skipn (S i) s) at 2. rewrite count_app.
    rewrite (count_all (atMost (nth i s 0%Q)) (firstn (S i) s)).
    + rewrite length_firstn. lia.
    + eapply List.Forall_impl; [|exact Hfirst]. intros x Hx. now apply Qle_bool_iff.
  - rewrite <- (firstn_skipn i s) at 2. rewrite count_app.
    rewrite (count_none (below (nth i s 0%Q)) (skipn i s)).
    + pose proof (count_le_length (below (nth i s 0%Q)) (firstn i s)) as Hc.
      rewrite length_firstn in Hc. lia.
    + eapply List.Forall_impl; [|exact Hrest]. intros x Hx. unfold below.
      apply negb_false_iff. now apply Qle_bool_iff.
  - rewrite <- (firstn_skipn (S i) s) at 2. rewrite count_app.
    rewrite (count_none (above (nth i s 0%Q)) (firstn (S i) s)).
    + pose proof (count_le_length (above (nth i s 0%Q)) (skipn (S i) s)) as Hc.
      rewrite length_skipn in Hc. lia.
    + eapply List.Forall_impl; [|exact Hfirst]. intros x Hx. unfold above.
      apply negb_false_iff. now apply Qle_bool_iff.
Qed.

Lemma slot_in_range (n : nat) : (0 < n)%nat -> (slot n < n)%nat.
Proof. apply TrackerProofs.index_in_range. Qed.

Lemma rawP95_rank (w : list Q) :
  (0 < length w)%nat ->
  (slot (length w) + 1 <= count (atMost (rawP95 w)) w)%nat
  /\ (count (below (rawP95 w)) w <= slot (length w))%nat
  /\ (count (above (rawP95 w)) w <= length w - (slot (length w) + 1))%nat.
Proof.
  intros Hn.
  pose proof (TrackerProofs.sort_perm (fun a b => a - b) w) as Hperm.
  rewrite <- (count_perm (atMost (rawP95 w)) _ _ Hperm).
  rewrite <- (count_perm (below (rawP95 w)) _ _ Hperm).
  rewrite <- (count_perm (above (rawP95 w)) _ _ Hperm).
  rewrite <- (TrackerProofs.sort_length (fun a b => a - b) w) at 3.
  apply (sorted_rank (sort (fun a b => a - b) w) (slot (length w))).
  - apply sort_strongly_sorted.
  - rewrite TrackerProofs.sort_length. now apply slot_in_range.
Qed.

(** The slot read is [max(1, floor(0.95 n)) - 1]. *)
Lemma slot_spec (n : nat) :
  (Z.of_nat (slot n) + 1 = Z.max 1 (95 * Z.of_nat n / 100))%Z.
Proof. unfold slot. rewrite TrackerProofs.p95_index_div. lia. Qed.

(** X6.  The raw percentile of a window of [n] samples (not empty) is one
    of the samples; with [k = max(1, floor(0.95 n))], at least [k]
    samples are at most it, fewer than [k] are below it and at most
    [n - k] are above it. *)
Theorem X6_raw_percentile_rank (x : Q) (rest : list Q) :
  let w := x :: rest in
  let k := Z.max 1 (95 * Z.of_nat (length w) / 100) in
  In (rawP95 w) w
  /\ (k <= Z.of_nat (count (atMost (rawP95 w)) w))%Z
  /\ (Z.of_nat (count (below (rawP95 w)) w) < k)%Z
  /\ (Z.of_nat (count (above (rawP95 w)) w) <= Z.of_nat (length w) - k)%Z.
Proof.
  intros w k.
  assert (Hn : (0 < length w)%nat) by (cbn; lia).
  destruct (rawP95_rank w Hn) as (H1 & H2 & H3).
  pose proof (slot_spec (length w)) as Hk. fold k in Hk.
  pose proof (slot_in_range (length w) Hn) as Hs.
  split; [now apply rawP95_in_window|]. lia.
Qed.

(** X7.  The raw percentile depends on the samples in the window, not on
    the order in which they arrived. *)
Theorem X7_raw_percentile_ignores_order (w w' : list Q) :
  Permutation w w' -> rawP95 w == rawP95 w'.
Proof.
  intros Hperm.
  destruct w as [|x rest].
  - apply Permutation_nil in Hperm. subst. reflexivity.
  - assert (Hn : (0 < length (x :: rest))%nat) by (cbn; lia).
    assert (Hlen : length (x :: rest) = length w') by now apply Permutation_length.
    assert (Hn' : (0 < length w')%nat) by lia.
    destruct (rawP95_rank (x :: rest) Hn) as (H1 & H2 & _).
    destruct (rawP95_rank w' Hn') as (H1' & H2' & _).
    rewrite <- Hlen in H1', H2'.
    rewrite <- (count_perm (atMost (rawP95 w')) _ _ Hperm) in H1'.
    rewrite <- (count_perm (below (rawP95 w')) _ _ Hperm) in H2'.
    set (r := rawP95 (x :: rest)) in *. set (r' := rawP95 w') in *.
    apply Qle_antisym.
    + destruct (Qlt_le_dec r' r) as [Hlt|Hle]; [exfalso|exact Hle].
      pose proof (count_mono (atMost r') (below r) (x :: rest)) as Hm.
      assert (Hc : (count (atMost r') (x :: rest) <= count (below r) (x :: rest))%nat).
      { apply Hm. intros y Hy. unfold atMost, below in *.
        apply Qle_bool_iff in Hy. apply negb_true_iff.
        destruct (Qle_bool r y) eqn:E; [|reflexivity].
        apply Qle_bool_iff in E. lra. }
      lia.
    + destruct (Qlt_le_dec r r') as [Hlt|Hle]; [exfalso|exact Hle].
      pose proof (count_mono (atMost r) (below r') (x :: rest)) as Hm.
      assert (Hc : (count (atMost r) (x :: rest) <= count (below r') (x :: rest))%nat).
      { apply Hm. intros y Hy. unfold atMost, below in *.
        apply Qle_bool_iff in Hy. apply negb_true_iff.
        destruct (Qle_bool r' y) eqn:E; [|reflexivity].
        apply Qle_bool_iff in E. lra. }
      lia.
Qed.

Lemma X7_raw_percentile_ignores_order_witness :
  Permutation [30; 10; 20] [10; 20; 30]
  /\ rawP95 [30; 10; 20] == rawP95 [10; 20; 30].
Proof.
  assert (Hp : Permutation [30; 10; 20] [10; 20; 30]).
  { apply (perm_trans (perm_swap 10 30 [20])). apply perm_skip. apply perm_swap. }
  split; [exact Hp|].
  exact (X7_raw_percentile_ignores_order [30; 10; 20] [10; 20; 30] Hp).
Defined.

(** X8.  In a window of at least two samples, at least two samples are at
    least the raw percentile, so the largest sample alone never sets it;
    in a window of at most 20 samples at most one sample is above it (it
    is the second largest). *)
Theorem X8_one_outlier_is_ignored (x y : Q) (rest : list Q) :
  let w := x :: y :: rest in
  (2 <= count (atLeast (rawP95 w)) w)%nat
  /\ ((count (above (rawP95 w)) w <= 1)%nat \/ (20 < length w)%nat).
Proof.
  intros w.
  assert (Hn : (0 < length w)%nat) by (cbn; lia).
  assert (Hn2 : (2 <= length w)%nat) by (cbn; lia).
  destruct (rawP95_rank w Hn) as (_ & H2 & H3).
  pose proof (slot_spec (length w)) as Hk.
  assert (Hdiv : (95 * Z.of_nat (length w) / 100 < Z.of_nat (length w))%Z)
    by (apply Z.div_lt_upper_bound; lia).
  split.
  - pose proof (List.filter_length (atLeast (rawP95 w)) w) as Hpart.
    change (length (List.filter (atLeast (rawP95 w)) w))
      with (count (atLeast (rawP95 w)) w) in Hpart.
    change (length (List.filter (fun x => negb (atLeast (rawP95 w) x)) w))
      with (count (below (rawP95 w)) w) in Hpart.
    lia.
  - destruct (Nat.le_gt_cases (length w) 20) as [H20|H20]; [left|now right].
    assert (Hge : (Z.of_nat (length w) - 1 <= 95 * Z.of_nat (length w) / 100)%Z)
      by (apply Z.div_le_lower_bound; lia).
    lia.
Qed.

(** X9.  On IEEE-754 doubles, for every window length the tracker can
    have (at most 100), [Math.floor(n * 0.95) - 1] is the integer
    [floor(95 n / 100) - 1], the index of the exact model, and the weight
    [1 - alpha] is the double written [0.8]. *)
Theorem X9_double_index (n : nat) :
  let m := Nat.min n 100 in
  Binary64.p95_index m = (95 * Z.of_nat m / 100 - 1)%Z
  /\ Binary64.p95_index m = p95_index m
  /\ Binary64.one_minus_alpha = Binary64.lit 8 10.
Proof.
  intros m.
  assert (Hm : (m <= 100)%nat) by (subst m; lia).
  pose proof (TrackerProofs.binary64_index m Hm) as Hi.
  split; [|split].
  - rewrite Hi. apply TrackerProofs.p95_index_div.
  - exact Hi.
  - apply TrackerProofs.binary64_index_and_weight.
Qed.

End TrackerMore.

(** ** The hedge coordinator *)

Module CoordinatorMore.

Import HedgedContext Scenarios.
Import CoordinatorProofs.

(** *** What a race returns *)

Lemma classify_accepted (label l : ResponseLabels) (f : fate Response)
  (time : nat) (res : Response) :
  classify label f = Fulfilled time (res, l) ->
  (200 <= status res < 300 \/ 400 <= status res < 500)%Z.
Proof.
  destruct f as [|t0 r0|t0 e0]; cbn [classify]; try discriminate.
  destruct (handleResponse r0 label) as [v|e] eqn:Hh; [|discriminate].
  intros H. inversion H; subst.
  assert (Hres : res = r0 /\ l = label).
  { unfold handleResponse in Hh. destruct (_ || _)%bool; [|discriminate].
    inversion Hh. auto. }
  destruct Hres as [-> ->].
  now apply (handleResponse_accepts r0 label).
Qed.

Lemma raced_accepted (c : t) (init : IHedgeFetchOptions) (w : World)
  (time : nat) (res : Response) (l : ResponseLabels) :
  raced c init w = Fulfilled time (res, l) ->
  (200 <= status res < 300 \/ 400 <= status res < 500)%Z.
Proof.
  unfold raced. intros H.
  assert (Hor : primaryRequest init w = Fulfilled time (res, l)
                \/ speculativeRequest c init w (primaryRequest init w)
                   = Fulfilled time (res, l)).
  { destruct (canHedge init); [now apply Promise_any_fulfilled|now left]. }
  destruct Hor as [Hp|Hs].
  - now apply classify_accepted in Hp.
  - unfold speculativeRequest in Hs.
    destruct (negb (woken c (primaryRequest init w))); [discriminate|].
    destruct (negb (stillHasBudget c)); [discriminate|].
    destruct (hookThrows (onHedge init)); [discriminate|].
    now apply classify_accepted in Hs.
Qed.

(** X10.  Whatever [fetch] returns has a status in [200,300) or in
    [400,500): a 5xx, a 3xx or a status below 200 is never handed to the
    caller as a response. *)
Theorem X10_returned_status (c : t) (init : IHedgeFetchOptions) (w : World)
  (time : nat) (res : Response) :
  outcome (fetch c init w) = Fulfilled time res ->
  (200 <= status res < 300 \/ 400 <= status res < 500)%Z.
Proof.
  unfold fetch. destruct (abortedOnEntry init); cbn [outcome]; [discriminate|].
  destruct (raced c init w) as [|ts [res' [|]]|ts e] eqn:Hr.
  - discriminate.
  - apply raced_accepted in Hr. cbn.
    destruct (hookThrows (onPrimaryWin init)); cbn; intros H; inversion H; subst.
    exact Hr.
  - apply raced_accepted in Hr. cbn.
    destruct (hookThrows (onSpeculativeWin init)); cbn; intros H; inversion H; subst.
    exact Hr.
  - destruct (settle_rejected_is_rejected init ts e) as [e' Hs]. rewrite Hs.
    discriminate.
Qed.

Lemma X10_returned_status_witness :
  outcome (fetch (context 1) plain (world (Responds 3 503) (Responds 10 404)))
  = Fulfilled 13 {| status := 404; isHedged := true |}
  /\ (200 <= 404 < 300 \/ 400 <= 404 < 500)%Z.
Proof.
  split; [reflexivity|].
  exact (X10_returned_status (context 1) plain (world (Responds 3 503) (Responds 10 404))
           13%nat {| status := 404; isHedged := true |} eq_refl).
Defined.

(** X11.  The [isHedged] mark tells the truth.  A returned response
    marked hedged comes from a speculative attempt that was dispatched
    and paid for with one token, and the primary's handle has been
    aborted, the hedge's has not; an unmarked one comes from the primary,
    and the hedge's handle has been aborted, the primary's has not. *)
Theorem X11_hedged_mark (c : t) (init : IHedgeFetchOptions) (w : World)
  (time : nat) (res : Response) :
  outcome (fetch c init w) = Fulfilled time res ->
  if isHedged res
  then hedged (fetch c init w) = true
       /\ HedgeBucket.tokens (bucketAfter (fetch c init w))
          = HedgeBucket.tokens (bucket c) - 1
       /\ primaryAborted (fetch c init w) = true
       /\ speculativeAborted (fetch c init w) = false
  else primaryAborted (fetch c init w) = false
       /\ speculativeAborted (fetch c init w) = true.
Proof.
  unfold fetch. destruct (abortedOnEntry init);
    cbn [outcome hedged bucketAfter primaryAborted speculativeAborted]; [discriminate|].
  destruct (raced c init w) as [|ts [res' [|]]|ts e] eqn:Hr.
  - discriminate.
  - apply raced_fulfilled in Hr. destruct Hr as [Hun _]. cbn.
    destruct (hookThrows (onPrimaryWin init)); cbn; intros H; inversion H; subst.
    rewrite Hun. split; reflexivity.
  - apply raced_fulfilled in Hr. destruct Hr as [_ Hsp].
    destruct (Hsp eq_refl) as [Hc Hd]. cbn.
    destruct (hookThrows (onSpeculativeWin init)); cbn; intros H; inversion H; subst.
    cbn [isHedged]. rewrite Hc, Hd. cbn. repeat split.
  - destruct (settle_rejected_is_rejected init ts e) as [e' Hs]. rewrite Hs.
    discriminate.
Qed.

Lemma X11_hedged_mark_witness :
  outcome (fetch (context 1) plain (world (Responds 900 200) (Responds 10 200)))
  = Fulfilled 160 {| status := 200; isHedged := true |}
  /\ hedged (fetch (context 1) plain (world (Responds 900 200) (Responds 10 200))) = true
  /\ HedgeBucket.tokens
       (bucketAfter (fetch (context 1) plain (world (Responds 900 200) (Responds 10 200))))
     = 1 - 1.
Proof.
  split; [reflexivity|].
  destruct (X11_hedged_mark (context 1) plain (world (Responds 900 200) (Responds 10 200))
              160%nat {| status := 200; isHedged := true |} eq_refl) as (H1 & H2 & _).
  split; [exact H1|exact H2].
Defined.

(** *** What a race throws *)







(** *** A race without hedging *)



(** *** The budget and the tracker across a race *)







(** *** Fail-fast *)



(** *** Deadline and cancellation in a race without hedging *)




(** *** The sample a race records *)





(** *** Options at their edges *)

Lemma upper_ascii_idempotent (a : ascii) :
  Js.upper_ascii (Js.upper_ascii a) = Js.upper_ascii a.
Proof. destruct a as [[] [] [] [] [] [] [] []]; reflexivity. Qed.

Lemma toUpperCase_idempotent (m : string) :
  Js.toUpperCase (Js.toUpperCase m) = Js.toUpperCase m.
Proof.
  unfold Js.toUpperCase. induction m as [|a m IH]; cbn; [reflexivity|].
  now rewrite upper_ascii_idempotent, IH.
Qed.

(** X20.  The method is read without regard to letter case: a call with
    method [m] behaves in every respect as the call with [m] in upper
    case (so ['get'] is hedged like ['GET'] and ['post'] gets its
    idempotency key like ['POST']). *)
Theorem X20_method_case (c : t) (init : IHedgeFetchOptions) (w : World) (m : string) :
  fetch c (withMethod m init) w = fetch c (withMethod (Js.toUpperCase m) init) w.
Proof.
  assert (Hm : methodOf (withMethod (Js.toUpperCase m) init) = methodOf (withMethod m init))
    by apply toUpperCase_idempotent.
  assert (Hsafe : isSafeMethod (withMethod (Js.toUpperCase m) init)
                  = isSafeMethod (withMethod m init))
    by (unfold isSafeMethod; now rewrite Hm).
  assert (Hcan : canHedge (withMethod (Js.toUpperCase m) init)
                 = canHedge (withMethod m init))
    by (unfold canHedge; now rewrite Hsafe).
  assert (Hh : forall uuid, requestHeaders (withMethod (Js.toUpperCase m) init) uuid
                            = requestHeaders (withMethod m init) uuid)
    by (intros uuid; unfold requestHeaders; now rewrite Hm).
  unfold fetch, raced, calledHooks.
  rewrite Hcan, Hh. reflexivity.
Qed.

(** X21.  [timeoutMs: 0] arms no deadline: the call behaves in every
    respect as the call without [timeoutMs]. *)
Theorem X21_zero_timeout (c : t) (init : IHedgeFetchOptions) (w : World) :
  timeoutMs init = Some 0%nat ->
  fetch c init w = fetch c (withoutTimeout init) w.
Proof.
  intros H.
  assert (Hf : forall s, firing init s = firing (withoutTimeout init) s).
  { intros s. destruct s; cbn; [reflexivity..|]. now rewrite H. }
  assert (Hab : forall sig, abortOf init sig = abortOf (withoutTimeout init) sig).
  { intros sig. unfold abortOf. generalize (@None (nat * reason)).
    induction sig as [|s sig IH]; intros acc; cbn; [reflexivity|].
    now rewrite Hf, IH. }
  unfold fetch, raced, calledHooks, recordLatency, primaryRequest, speculativeRequest,
    hedgeDispatched, primaryTransport.
  rewrite !Hab. reflexivity.
Qed.

Lemma X21_zero_timeout_witness :
  timeoutMs (withSignal (cancelAt 40 "stop") (withTimeout 0 plain)) = Some 0%nat
  /\ fetch (context 1) (withSignal (cancelAt 40 "stop") (withTimeout 0 plain))
           (world Hangs Hangs)
     = fetch (context 1)
             (withoutTimeout (withSignal (cancelAt 40 "stop") (withTimeout 0 plain)))
             (world Hangs Hangs).
Proof.
  split; [reflexivity|].
  exact (X21_zero_timeout (context 1)
           (withSignal (cancelAt 40 "stop") (withTimeout 0 plain))
           (world Hangs Hangs) eq_refl).
Defined.

(** *** Hedging against the primary alone *)

(** X22.  Hedging never delays an accepted primary: when the primary
    attempt is accepted at [tp] and no win hook throws, the race returns
    a response no later than [tp]. *)
Theorem X22_never_slower_than_primary (c : t) (init : IHedgeFetchOptions) (w : World)
  (tp : nat) (res : Response) (l : ResponseLabels) :
  abortedOnEntry init = None ->
  hookThrows (onPrimaryWin init) = None ->
  hookThrows (onSpeculativeWin init) = None ->
  primaryRequest init w = Fulfilled tp (res, l) ->
  exists (time : nat) (res' : Response),
    outcome (fetch c init w) = Fulfilled time res' /\ (time <= tp)%nat.
Proof.
  intros Hentry Hp Hs Hprim.
  destruct (fetch_past_entry c init w Hentry) as [-> _].
  unfold raced. rewrite Hprim.
  pose proof Hprim as Hl. apply primaryRequest_fulfilled in Hl. destruct Hl as [-> _].
  destruct (canHedge init).
  - destruct (speculativeRequest c init w (Fulfilled tp (res, primary)))
      as [|ts [rs ls]|ts es] eqn:Hspec; cbn [Promise_any].
    + cbn. rewrite Hp. eauto.
    + rewrite <- Hprim in Hspec. apply speculativeRequest_fulfilled in Hspec.
      destruct Hspec as (-> & _ & _).
      destruct (Nat.ltb_spec ts tp) as [Hlt|Hge]; cbn.
      * rewrite Hs. eexists _, _. split; [reflexivity|lia].
      * rewrite Hp. eauto.
    + cbn. rewrite Hp. eauto.
  - cbn. rewrite Hp. eauto.
Qed.

Lemma X22_never_slower_than_primary_witness :
  abortedOnEntry plain = None
  /\ primaryRequest plain (world (Responds 900 200) (Responds 10 200))
     = Fulfilled 900 ({| status := 200; isHedged := false |}, primary)
  /\ exists (time : nat) (res' : Response),
       outcome (fetch (context 1) plain (world (Responds 900 200) (Responds 10 200)))
       = Fulfilled time res' /\ (time <= 900)%nat.
Proof.
  split; [reflexivity|]. split; [reflexivity|].
  exact (X22_never_slower_than_primary (context 1) plain
           (world (Responds 900 200) (Responds 10 200)) 900%nat
           {| status := 200; isHedged := false |} primary
           eq_refl eq_refl eq_refl eq_refl).
Defined.

(** X23.  A primary that loses to the hedge teaches the tracker nothing:
    when the race returns a response marked hedged before the primary's
    headers would have arrived, no sample is recorded. *)
Theorem X23_lost_primary_is_not_recorded (c : t) (init : IHedgeFetchOptions) (w : World)
  (time : nat) (res : Response) :
  outcome (fetch c init w) = Fulfilled time res ->
  isHedged res = true ->
  match primaryTransport init w with
  | Fulfilled tp _ => (time <? tp)%nat
  | _ => true
  end = true ->
  trackerAfter (fetch c init w) = tracker c.
Proof.
  unfold fetch. destruct (abortedOnEntry init); cbn [outcome trackerAfter]; [discriminate|].
  intros Hout Hmark Hlate. unfold recordLatency.
  destruct (primaryTransport init w) as [|tp rp|tp ep]; try reflexivity.
  destruct (raced c init w) as [|ts [res' [|]]|ts e] eqn:Hr.
  - discriminate.
  - apply raced_fulfilled in Hr. destruct Hr as [Hun _]. cbn in Hout.
    destruct (hookThrows (onPrimaryWin init)); cbn in Hout; inversion Hout; subst.
    congruence.
  - cbn in Hout.
    destruct (hookThrows (onSpeculativeWin init)); cbn in Hout; inversion Hout; subst.
    now rewrite Hlate.
  - destruct (settle_rejected_is_rejected init ts e) as [e' Hs]. rewrite Hs in Hout.
    discriminate.
Qed.

Lemma X23_lost_primary_is_not_recorded_witness :
  outcome (fetch (context 1) plain (world (Responds 900 200) (Responds 10 200)))
  = Fulfilled 160 {| status := 200; isHedged := true |}
  /\ trackerAfter (fetch (context 1) plain (world (Responds 900 200) (Responds 10 200)))
     = tracker (context 1).
Proof.
  split; [reflexivity|].
  exact (X23_lost_primary_is_not_recorded (context 1) plain
           (world (Responds 900 200) (Responds 10 200)) 160%nat
           {| status := 200; isHedged := true |} eq_refl eq_refl eq_refl).
Defined.

(** *** The reward *)

(** X24.  When the race returns an unmarked response, that is the
    primary's, the budget is what the hedge left of it (one token less if
    a hedge was dispatched), rewarded by one [inc] exactly when the
    status is below 300: a returned 4xx earns nothing. *)
Theorem X24_reward_for_2xx_only (c : t) (init : IHedgeFetchOptions) (w : World)
  (time : nat) (res : Response) :
  outcome (fetch c init w) = Fulfilled time res ->
  isHedged res = false ->
  bucketAfter (fetch c init w)
  = let b := if hedged (fetch c init w)
             then St.exec HedgeBucket.consumeHedge (bucket c) else bucket c in
    if (status res <? 300)%Z then St.exec HedgeBucket.inc b else b.
Proof.
  unfold fetch. destruct (abortedOnEntry init); cbn [outcome bucketAfter hedged];
    [discriminate|].
  intros Hout Hmark. unfold settleBudget.
  destruct (raced c init w) as [|ts [res' [|]]|ts e] eqn:Hr.
  - discriminate.
  - pose proof (raced_accepted c init w ts res' primary Hr) as Hst.
    cbn in Hout.
    destruct (hookThrows (onPrimaryWin init)); cbn in Hout; inversion Hout; subst.
    cbv zeta. unfold ok.
    destruct (Z.ltb_spec (status res) 300) as [Hlt|Hge].
    + replace ((200 <=? status res) && (status res <=? 299))%Z with true
        by (symmetry; apply andb_true_iff; lia).
      reflexivity.
    + replace ((200 <=? status res) && (status res <=? 299))%Z with false
        by (symmetry; apply andb_false_iff; lia).
      reflexivity.
  - cbn in Hout.
    destruct (hookThrows (onSpeculativeWin init)); cbn in Hout; inversion Hout; subst.
    discriminate.
  - destruct (settle_rejected_is_rejected init ts e) as [e' Hs]. rewrite Hs in Hout.
    discriminate.
Qed.

Lemma X24_reward_for_2xx_only_witness :
  outcome (fetch (context 1) plain (world (Responds 10 404) Hangs))
  = Fulfilled 10 {| status := 404; isHedged := false |}
  /\ bucketAfter (fetch (context 1) plain (world (Responds 10 404) Hangs))
     = bucket (context 1).
Proof.
  split; [reflexivity|].
  exact (X24_reward_for_2xx_only (context 1) plain (world (Responds 10 404) Hangs)
           10%nat {| status := 404; isHedged := false |} eq_refl eq_refl).
Defined.

(** *** The hooks that are called *)

(** X25.  In every race each hook is called at most once and at most one
    of the two win hooks is called; [onHedge] is called only for a hedge
    that is then dispatched, unless the hook itself throws, and it is
    called for every dispatched hedge when it is given;
    [onSpeculativeWin] is called only after a hedge was dispatched. *)
Theorem X25_hooks_called (c : t) (init : IHedgeFetchOptions) (w : World) :
  List.NoDup (hooksCalled (fetch c init w))
  /\ ~ (List.In OnPrimaryWin (hooksCalled (fetch c init w))
        /\ List.In OnSpeculativeWin (hooksCalled (fetch c init w)))
  /\ (List.In OnHedge (hooksCalled (fetch c init w)) ->
      hedged (fetch c init w) = true \/ exists e, hookThrows (onHedge init) = Some e)
  /\ (hedged (fetch c init w) = true -> isSome (onHedge init) = true ->
      List.In OnHedge (hooksCalled (fetch c init w)))
  /\ (List.In OnSpeculativeWin (hooksCalled (fetch c init w)) ->
      hedged (fetch c init w) = true).
Proof.
  unfold fetch. destruct (abortedOnEntry init); cbn [hooksCalled hedged].
  { split; [constructor|]. split; [cbn; tauto|]. split; [cbn; tauto|].
    split; [discriminate|cbn; tauto]. }
  unfold calledHooks, hedgeDispatched.
  assert (Hspec : forall ts res, raced c init w = Fulfilled ts (res, speculative) ->
                  (canHedge init && (woken c (primaryRequest init w) && stillHasBudget c
                    && negb (bool_decide (is_Some (hookThrows (onHedge init))))))%bool
                  = true).
  { intros ts res Hr. apply raced_fulfilled in Hr. destruct Hr as [_ Hsp].
    destruct (Hsp eq_refl) as [Hc Hd]. rewrite Hc. exact Hd. }
  destruct (canHedge init), (woken c (primaryRequest init w)), (stillHasBudget c);
    cbn [andb];
    (destruct (onHedge init) as [[|e]|]; cbn in Hspec |- *);
    (destruct (raced c init w) as [|ts [res [|]]|ts e'] eqn:Hr;
     [|destruct (isSome (onPrimaryWin init))
      |specialize (Hspec ts res eq_refl); destruct (isSome (onSpeculativeWin init))|]);
    cbn [app]; cbn in Hspec; try discriminate Hspec;
    (split; [repeat constructor; cbn; intuition discriminate|]);
    (split; [cbn; intuition discriminate|]);
    (split; [cbn; intuition eauto; try discriminate|]);
    (split; cbn; intuition discriminate).
Qed.

(** *** When the race settles *)

Lemma classify_settledBy (label : ResponseLabels) (f : fate Response) (bound : nat) :
  Measures.settledBy bound f -> Measures.settledBy bound (classify label f).
Proof.
  destruct f as [|t0 r0|t0 e0]; cbn; auto.
  destruct (handleResponse r0 label); cbn; auto.
Qed.

Lemma Promise_any_settledBy {A} (p s : fate A) (bound : nat) :
  Measures.settledBy bound p ->
  (match p with Fulfilled _ _ => True | _ => Measures.settledBy bound s end) ->
  Measures.settledBy bound (Promise_any p s).
Proof.
  destruct p as [|tp vp|tp ep], s as [|ts vs|ts es]; unfold Promise_any;
    try (destruct (Nat.ltb_spec ts tp)); unfold Measures.settledBy;
    intros; try tauto; lia.
Qed.

Lemma settle_settledBy (init : IHedgeFetchOptions)
  (r : fate (Response * ResponseLabels)) (bound : nat) :
  Measures.settledBy bound r -> Measures.settledBy bound (fst (fst (settle init r))).
Proof.
  destruct r as [|ts [res [|]]|ts e]; cbn; auto.
  - destruct (hookThrows (onPrimaryWin init)); cbn; auto.
  - destruct (hookThrows (onSpeculativeWin init)); cbn; auto.
  - destruct e; cbn; auto.
Qed.

Lemma send_settledBy (x : exchange) (start ta bound : nat) (r : reason) :
  (start <= bound)%nat -> (ta <= bound)%nat ->
  Measures.settledBy bound (send x start (Some (ta, r))).
Proof.
  intros Hs Ht. unfold send.
  destruct (Nat.leb_spec ta start); [exact Hs|].
  destruct x as [d st|d msg|];
    try (destruct (Nat.leb_spec ta (start + d)));
    unfold Measures.settledBy; lia.
Qed.

(** The deadline's timer fires at [timeoutMs], or after 1 ms when
    [timeoutMs] is above 2147483647: never later than [timeoutMs]. *)
Lemma setTimeoutDelay_spec (ms : nat) :
  (0 < ms)%nat ->
  (Js.setTimeoutDelay ms <= ms)%nat
  /\ ((Z.of_nat ms <= 2147483647)%Z -> Js.setTimeoutDelay ms = ms)
  /\ ((2147483647 < Z.of_nat ms)%Z -> Js.setTimeoutDelay ms = 1%nat).
Proof.
  intros Hms. unfold Js.setTimeoutDelay.
  destruct (Z.ltb_spec 2147483647 (Z.of_nat ms)); repeat split; intros; lia.
Qed.

(** With a caller's token and an armed deadline, each branch's signal
    aborts no later than the deadline. *)
Lemma deadline_aborts_both (init : IHedgeFetchOptions) (sg : AbortSignal) (ms : nat) :
  signal init = Some sg ->
  timeoutMs init = Some ms ->
  (0 < ms)%nat ->
  (exists ta r, abortOf init (primarySignal init) = Some (ta, r) /\ (ta <= ms)%nat)
  /\ (exists ta r, abortOf init (speculativeSignal init) = Some (ta, r) /\ (ta <= ms)%nat).
Proof.
  intros Hs Ht Hms. unfold abortOf, primarySignal, speculativeSignal.
  rewrite Hs. cbn [fold_left firing]. rewrite Hs, Ht.
  destruct (setTimeoutDelay_spec ms Hms) as [Hle _].
  destruct ms as [|m]; [lia|]. cbn [Js.truthy_ms].
  set (delay := Js.setTimeoutDelay (S m)) in *.
  destruct (firesAt sg) as [tc|]; cbn [earlier].
  - destruct (Nat.ltb_spec delay tc); split; eexists _, _; split; try reflexivity; lia.
  - split; eexists _, _; split; try reflexivity; lia.
Qed.

(** X27.  The deadline as a safety net, where it is one: with a caller's
    token, an armed deadline and either no hedging or budget for the
    hedge, the race settles (returns or throws) no later than the
    deadline, whatever the backend does. *)
Theorem X27_deadline_bounds_the_race (c : t) (init : IHedgeFetchOptions) (w : World)
  (sg : AbortSignal) (ms : nat) :
  signal init = Some sg ->
  timeoutMs init = Some ms ->
  (0 < ms)%nat ->
  canHedge init = false \/ stillHasBudget c = true ->
  Measures.settledBy ms (outcome (fetch c init w)).
Proof.
  intros Hs Ht Hms Hor.
  destruct (deadline_aborts_both init sg ms Hs Ht Hms)
    as [(tap & rp & Habp & Hlep) (tas & rs & Habs & Hles)].
  unfold fetch. destruct (abortedOnEntry init); cbn [outcome]; [cbn; lia|].
  apply settle_settledBy.
  assert (Hp : Measures.settledBy ms (primaryRequest init w)).
  { unfold primaryRequest, primaryTransport. rewrite Habp.
    apply classify_settledBy, send_settledBy; lia. }
  unfold raced. destruct (canHedge init) eqn:Hc; [|exact Hp].
  destruct Hor as [Hor|Hb]; [discriminate|].
  apply Promise_any_settledBy; [exact Hp|].
  destruct (primaryRequest init w) as [|tp vp|tp ep] eqn:Hpr;
    [destruct Hp|exact I|].
  unfold speculativeRequest. cbn [woken negb wakeTime]. rewrite Hb. cbn [negb].
  cbn in Hp.
  destruct (hookThrows (onHedge init)); [cbn; lia|].
  rewrite Habs. apply classify_settledBy, send_settledBy; lia.
Qed.

Lemma X27_deadline_bounds_the_race_witness :
  signal (withSignal quiet (withTimeout 5000 plain)) = Some quiet
  /\ timeoutMs (withSignal quiet (withTimeout 5000 plain)) = Some 5000%nat
  /\ stillHasBudget (context 1) = true
  /\ Measures.settledBy 5000
       (outcome (fetch (context 1) (withSignal quiet (withTimeout 5000 plain))
                       (world Hangs Hangs))).
Proof.
  repeat (split; [reflexivity|]).
  refine (X27_deadline_bounds_the_race (context 1)
            (withSignal quiet (withTimeout 5000 plain)) (world Hangs Hangs)
            quiet 5000%nat eq_refl eq_refl _ (or_intror eq_refl)).
  lia.
Defined.

Lemma send_answers (x : exchange) (start : nat) (ab : option (nat * reason)) :
  x <> Hangs -> send x start ab <> Pending.
Proof.
  intros Hx. unfold send. destruct x as [d st|d msg|]; [| |congruence];
    destruct ab as [[ta r]|]; cbn;
    repeat match goal with |- context [if ?b then _ else _] => destruct b end;
    discriminate.
Qed.

Lemma classify_answers (label : ResponseLabels) (f : fate Response) :
  f <> Pending -> classify label f <> Pending.
Proof.
  destruct f as [|t0 r0|t0 e0]; cbn; [congruence| |discriminate].
  destruct (handleResponse r0 label); discriminate.
Qed.

(** X28.  When neither attempt is left unanswered by the transport, and
    hedging is either not allowed or has budget, the race settles: it
    returns or it throws.  (A race stays pending only through an
    unanswered attempt or a hedge that found no budget.) *)
Theorem X28_answered_race_settles (c : t) (init : IHedgeFetchOptions) (w : World) :
  primaryExchange w <> Hangs ->
  speculativeExchange w <> Hangs ->
  canHedge init = false \/ stillHasBudget c = true ->
  outcome (fetch c init w) <> Pending.
Proof.
  intros Hpx Hsx Hor.
  unfold fetch. destruct (abortedOnEntry init); cbn [outcome]; [discriminate|].
  assert (Hp : primaryRequest init w <> Pending)
    by (apply classify_answers, send_answers, Hpx).
  assert (Hr : raced c init w <> Pending).
  { unfold raced. destruct (canHedge init); [|exact Hp].
    destruct Hor as [Hor|Hb]; [discriminate|].
    destruct (primaryRequest init w) as [|tp vp|tp ep] eqn:Hpr; [congruence| |].
    - destruct (speculativeRequest c init w (Fulfilled tp vp)) as [|ts vs|ts es];
        unfold Promise_any; try destruct (ts <? tp)%nat; discriminate.
    - assert (Hs : speculativeRequest c init w (Rejected tp ep) <> Pending).
      { unfold speculativeRequest. cbn [woken negb]. rewrite Hb. cbn [negb].
        destruct (hookThrows (onHedge init)); [discriminate|].
        apply classify_answers, send_answers, Hsx. }
      destruct (speculativeRequest c init w (Rejected tp ep)) as [|ts vs|ts es];
        unfold Promise_any; [congruence|discriminate|discriminate]. }
  destruct (raced c init w) as [|ts [res [|]]|ts e]; [congruence| | |]; cbn.
  - destruct (hookThrows (onPrimaryWin init)); discriminate.
  - destruct (hookThrows (onSpeculativeWin init)); discriminate.
  - destruct e; discriminate.
Qed.

Lemma X28_answered_race_settles_witness :
  primaryExchange (world (Responds 3 503) (NetworkFails 4 "reset")) <> Hangs
  /\ speculativeExchange (world (Responds 3 503) (NetworkFails 4 "reset")) <> Hangs
  /\ stillHasBudget (context 1) = true
  /\ outcome (fetch (context 1) plain (world (Responds 3 503) (NetworkFails 4 "reset")))
     <> Pending.
Proof.
  assert (H1 : primaryExchange (world (Responds 3 503) (NetworkFails 4 "reset")) <> Hangs)
    by discriminate.
  assert (H2 : speculativeExchange (world (Responds 3 503) (NetworkFails 4 "reset")) <> Hangs)
    by discriminate.
  split; [exact H1|]. split; [exact H2|]. split; [reflexivity|].
  exact (X28_answered_race_settles (context 1) plain
           (world (Responds 3 503) (NetworkFails 4 "reset")) H1 H2 (or_intror eq_refl)).
Defined.

End CoordinatorMore.
